(** * Venue selection (src/utils/venueSelection.ts)

    A shallow embedding of [VenueSelectionAlgorithm] and the properties its
    specification states about it.

    Modelling conventions.
    - JavaScript strings are [string]s of 8-bit characters.
      [String.prototype.toLowerCase] lower-cases every cased letter of
      Unicode; it is a function of the host ([StringApi]) of which nothing
      is assumed.  The sample host lower-cases the ASCII letters, which is
      what the engine does on the ASCII strings of the sample data.
    - The integer columns of a venue ([capacity], [area_sqft]) and the
      participant count are [Z]: integers that a JavaScript number holds
      exactly, as [participants * 6] is taken to be.  A score is a
      JavaScript number, an IEEE 754 double: it is the rational it denotes
      ([Q]), and every arithmetic operation on numbers is the exact
      operation followed by the rounding [fl] to the nearest double
      ([Binary64]).  Infinities, NaN and the ends of the exponent range
      are not modelled: the data model has a positive participant count,
      so the divisor [participants * 6] is never zero, and theorems about
      scores carry that as a hypothesis.
    - The [Date] object of the host is an interface ([DateApi]): what a
      date-time string denotes depends on the host's parser and time
      zone.  [toISOString] gives the date in UTC, [toLocaleTimeString] the
      wall-clock time of the host's zone, and nothing ties the two
      together.  [toISOString] throws a RangeError on an invalid date, so
      the functions that reach it return an [option] ([None] is the
      exception).
    - [Array.prototype.sort] is stable; on a comparator that is a total
      preorder on the elements sorted, its result is the stable sorted
      arrangement, which [JsArray.sort] computes by insertion. *)

From Stdlib Require Import ZArith QArith Qminmax Qabs Qround Qpower.
From Stdlib Require Import Lqa Lia Bool.
From Stdlib Require Import String Ascii List DecimalString.
From Stdlib Require Import Permutation Sorted.
Import ListNotations.

Open Scope string_scope.
Open Scope Z_scope.

(** ** Strings *)

Module JsString.

(** [s.includes(sub)] *)
Fixpoint includes (s sub : string) : bool :=
  String.prefix sub s ||
  match s with
  | EmptyString => false
  | String _ s' => includes s' sub
  end.

(** [s.split(sep)] for a separator of one character; the result is never
    empty ([''.split(' ')] is [['']]). *)
Fixpoint split (sep : ascii) (s : string) : list string :=
  match s with
  | EmptyString => [EmptyString]
  | String c s' =>
      if Ascii.eqb c sep then EmptyString :: split sep s'
      else match split sep s' with
           | [] => [String c EmptyString]
           | t :: ts => String c t :: ts
           end
  end.

Definition lower_ascii (c : ascii) : ascii :=
  let n := N_of_ascii c in
  if ((65 <=? n) && (n <=? 90))%N then ascii_of_N (n + 32) else c.

(** [s.toLowerCase()] for a string [s] of ASCII characters. *)
Fixpoint toLowerCase (s : string) : string :=
  match s with
  | EmptyString => EmptyString
  | String c s' => String (lower_ascii c) (toLowerCase s')
  end.

(** [xs.join(sep)] *)
Definition join (sep : string) (xs : list string) : string :=
  String.concat sep xs.

(** [a <= b] on two strings: lexicographic on the character codes. *)
Definition le (a b : string) : bool := String.leb a b.

(** [`${n}`] for an integer [n]. *)
Definition ofInt (n : Z) : string := NilZero.string_of_int (Z.to_int n).

(** A string is truthy when it is not empty. *)
Definition truthy (s : string) : bool :=
  match s with EmptyString => false | _ => true end.

End JsString.

(** ** Arrays *)

Module JsArray.

Section Sort.
Context {A : Type} (compareFn : A -> A -> Q).

(** [x] goes before the first element it does not compare greater
    than. *)
Fixpoint insert (x : A) (l : list A) : list A :=
  match l with
  | [] => [x]
  | y :: l' =>
      if Qle_bool (compareFn x y) 0 then x :: l else y :: insert x l'
  end.

(** [xs.sort(compareFn)] *)
Definition sort (l : list A) : list A := fold_right insert [] l.
End Sort.

(** Under [compareFn], [x] may stand before [y]. *)
Definition precedes {A : Type} (compareFn : A -> A -> Q) (x y : A) : Prop :=
  Qle_bool (compareFn x y) 0 = true.

(** [xs.slice(0, n)] *)
Definition slice0 {A : Type} (n : nat) (l : list A) : list A := firstn n l.

(** [xs.some(p)] and [xs.every(p)] *)
Definition some {A : Type} (p : A -> bool) (l : list A) : bool := existsb p l.
Definition every {A : Type} (p : A -> bool) (l : list A) : bool := forallb p l.

(** [xs.flat()] on an array of arrays *)
Definition flat {A : Type} (l : list (list A)) : list A := List.concat l.

(** An array that may be [null]: [!xs || xs.length === 0] *)
Definition absentOrEmpty {A : Type} (o : option (list A)) : bool :=
  match o with
  | None | Some [] => true
  | Some (_ :: _) => false
  end.

Definition orEmpty {A : Type} (o : option (list A)) : list A :=
  match o with None => [] | Some l => l end.

End JsArray.

(** ** Numbers

    A number is an IEEE 754 double, taken as the rational it denotes.
    [fl] rounds a rational to the nearest double; an operation of the
    source on numbers is the exact operation followed by [fl]. *)

Class Binary64 := { fl : Q -> Q }.

Section Arithmetic.
Context {fp : Binary64}.

(** [x + y], [x - y], [x * y] and [x / y] on numbers *)
Definition fadd (x y : Q) : Q := fl (x + y).
Definition fsub (x y : Q) : Q := fl (x - y).
Definition fmul (x y : Q) : Q := fl (x * y).
Definition fdiv (x y : Q) : Q := fl (x / y).

End Arithmetic.

(** What the proofs use of the rounding: it respects equality, is
    monotone and odd, keeps the sign, leaves the numbers with a
    significand of 53 bits where they are, yields multiples of the unit in
    the last place, and does nothing to what it has rounded. *)
Class Binary64Laws (fp : Binary64) : Prop := {
  fl_compat : forall x y, (x == y -> fl x == fl y)%Q;
  fl_monotone : forall x y, (x <= y -> fl x <= fl y)%Q;
  fl_odd : forall x, (fl (- x) == - fl x)%Q;
  fl_positive : forall x, (0 < x -> 0 < fl x)%Q;
  fl_exact : forall k e : Z,
    Z.abs k < 2 ^ 53 -> (fl (inject_Z k * 2 ^ e) == inject_Z k * 2 ^ e)%Q;
  fl_grid : forall (x : Q) (e : Z),
    (2 ^ e <= Qabs x)%Q ->
    exists k : Z, (fl x == inject_Z k * 2 ^ (e - 52))%Q;
  fl_idempotent : forall x, (fl (fl x) == fl x)%Q
}.

(** Rounding to nearest, ties to even, with a significand of 53 bits.  The
    range of the exponent is not bounded: overflow and underflow, which
    need numbers beyond 1e308 or below 1e-308, are not modelled. *)
Module Double.

(** The nearest integer, the even one of two equally near. *)
Definition roundHalfEven (x : Q) : Z :=
  let f := Qfloor x in
  match Qcompare (x - inject_Z f) (1 # 2) with
  | Lt => f
  | Gt => f + 1
  | Eq => if Z.even f then f else f + 1
  end.

(** For [0 < x], the [e] with [2 ^ e <= x < 2 ^ (e + 1)]. *)
Definition exponent (x : Q) : Z :=
  let e0 := Z.log2 (Qnum x) - Z.log2 (Zpos (Qden x)) in
  if Qle_bool (2 ^ e0) x then e0 else e0 - 1.

Definition roundPos (x : Q) : Q :=
  let e := exponent x in
  (inject_Z (roundHalfEven (x * 2 ^ (52 - e))) * 2 ^ (e - 52))%Q.

Definition round (x : Q) : Q :=
  match Qcompare x 0 with
  | Eq => 0%Q
  | Gt => roundPos x
  | Lt => (- roundPos (- x))%Q
  end.

End Double.

Definition binary64 : Binary64 := {| fl := Double.round |}.

(** ** The host's [Date] *)

Class DateApi := {
  (** [new Date(s).toISOString().split('T')[0]], the date in UTC; [None]
      when the date is invalid and [toISOString] throws. *)
  isoDate : string -> option string;
  (** [new Date(s).toLocaleTimeString('en-US',
      {hour12: false, hour: '2-digit', minute: '2-digit'})], the time in
      the host's zone *)
  localeTime : string -> string
}.

(** ** The host's strings *)

Class StringApi := {
  (** [s.toLowerCase()] *)
  toLowerCase : string -> string
}.

Definition digit (c : ascii) : option Z :=
  let n := N_of_ascii c in
  if ((48 <=? n) && (n <=? 57))%N then Some (Z.of_N n - 48) else None.

(** [new Date(`2000-01-01 ${t}`).getTime()] for a zero-padded [HH:MM],
    counted from local midnight of that day (only differences of two such
    values are used); [None] is the NaN of an invalid date.  Strings of
    another shape, some of which the engine's parser reads as well
    ([9:00]), are outside the storage contract and are taken as invalid:
    what is proved of the values of [getTime] is proved of zero-padded
    times. *)
Definition getTime (t : string) : option Z :=
  match t with
  | String h1 (String h2 (String sep (String m1 (String m2 EmptyString)))) =>
      match digit h1, digit h2, digit m1, digit m2 with
      | Some a, Some b, Some c, Some d =>
          let h := 10 * a + b in
          let m := 10 * c + d in
          if Ascii.eqb sep ":" && (h <? 24) && (m <? 60)
          then Some ((h * 60 + m) * 60 * 1000)
          else None
      | _, _, _, _ => None
      end
  | _ => None
  end.

(** ** Data model *)

Record Venue := mkVenue {
  name : string;
  capacity : Z;
  venue_type : string;
  area_sqft : Z;
  facilities : option (list string);
  booked_slots : option (list string)
}.

Inductive Priority := high | medium | low.
Inductive EventType := technical | non_technical.

Record EventRequirements := mkRequirements {
  participants : Z;
  facilitiesRequired : list string;
  preferredDateTime : string;
  priority : Priority;
  eventType : EventType;
  spaceType : option string
}.

Record VenueMatch := mkMatch {
  venue : Venue;
  score : Q;
  reason : string;
  alternative : bool
}.

Record MatchResult := mkResult {
  exactMatches : list VenueMatch;
  alternatives : list VenueMatch;
  noMatch : bool
}.

Definition isHigh (p : Priority) : bool :=
  match p with high => true | _ => false end.

(** ** The algorithm *)

Definition calculateRequiredArea (participants : Z) : Z := participants * 6.

(** The callback of [booked_slots.some] in [isVenueAvailable]. *)
Definition slotConflicts (requestedDate requestedTime slot : string) : bool :=
  if JsString.includes slot requestedDate then
    match nth_error (JsString.split " " slot) 1 with
    | Some timeRange =>
        if JsString.truthy timeRange && JsString.includes timeRange "-" then
          match JsString.split "-" timeRange with
          | startTime :: endTime :: _ =>
              JsString.le startTime requestedTime &&
              JsString.le requestedTime endTime
          | _ => false
          end
        else false
    | None => false
    end
  else false.

Section Algorithm.
Context {host : DateApi} {fp : Binary64} {str : StringApi}.

Definition isVenueAvailable (venue : Venue) (requestedDateTime : string)
  : option bool :=
  if JsArray.absentOrEmpty (booked_slots venue) then Some true
  else
    match isoDate requestedDateTime with
    | None => None
    | Some requestedDate =>
        let requestedTime := localeTime requestedDateTime in
        Some (negb (JsArray.some (slotConflicts requestedDate requestedTime)
                      (JsArray.orEmpty (booked_slots venue))))
    end.

(** The callback of the inner [some] in [hasFacilities]. *)
Definition facilityMatches (required available : string) : bool :=
  JsString.includes (toLowerCase available) (toLowerCase required) ||
  JsString.includes (toLowerCase required) (toLowerCase available).

Definition hasFacilities (venue : Venue) (requiredFacilities : list string)
  : bool :=
  match requiredFacilities with
  | [] => true
  | _ =>
      if JsArray.absentOrEmpty (facilities venue) then false
      else
        JsArray.every
          (fun required =>
             JsArray.some (facilityMatches required)
               (JsArray.orEmpty (facilities venue)))
          requiredFacilities
  end.

Definition calculateScore (venue : Venue) (requirements : EventRequirements)
  (isAvailable hasFacilities areaMatch : bool) : Q :=
  let score := 0%Q in
  let score :=
    if areaMatch then
      let efficiency :=
        fdiv (inject_Z (area_sqft venue))
             (inject_Z (calculateRequiredArea (participants requirements))) in
      fadd score (Qmax 0 (fsub 100 (fmul (fsub efficiency 1) 20)))
    else score in
  let score := if isAvailable then fadd score 50 else score in
  let score := if hasFacilities then fadd score 30 else score in
  let score :=
    if capacity venue >=? participants requirements
    then fadd score 20 else score in
  let score :=
    if isHigh (priority requirements) then fadd score 10 else score in
  score.

(** The filter of the [Missing facilities] branch. *)
Definition missingFacilities (venue : Venue) (requirements : EventRequirements)
  : list string :=
  filter
    (fun req =>
       negb (match facilities venue with
             | None => false
             | Some fs =>
                 JsArray.some
                   (fun f => JsString.includes (toLowerCase f)
                                               (toLowerCase req))
                   fs
             end))
    (facilitiesRequired requirements).

Definition reasonFor (venue : Venue) (requirements : EventRequirements)
  (requiredArea : Z) (areaMatch isAvailable hasFacilities : bool) : string :=
  if areaMatch && isAvailable && hasFacilities then
    "Perfect match: Adequate space, available, and has required facilities"
  else if negb areaMatch then
    "Too small: Needs " ++ JsString.ofInt requiredArea ++ " sq ft, has "
      ++ JsString.ofInt (area_sqft venue) ++ " sq ft"
  else if negb isAvailable then
    "Venue is booked at requested time"
  else if negb hasFacilities then
    "Missing facilities: "
      ++ JsString.join ", " (missingFacilities venue requirements)
  else "".

(** The body of the [forEach] callback of [findBestVenues], up to the
    record it builds. *)
Definition evaluateVenue (requirements : EventRequirements) (venue : Venue)
  : option VenueMatch :=
  let requiredArea := calculateRequiredArea (participants requirements) in
  let areaMatch := area_sqft venue >=? requiredArea in
  match isVenueAvailable venue (preferredDateTime requirements) with
  | None => None
  | Some isAvailable =>
      let hasFac := hasFacilities venue (facilitiesRequired requirements) in
      let score :=
        calculateScore venue requirements isAvailable hasFac areaMatch in
      let reason :=
        reasonFor venue requirements requiredArea areaMatch isAvailable hasFac in
      Some {| venue := venue;
              score := score;
              reason := reason;
              alternative :=
                negb areaMatch || negb isAvailable || negb hasFac |}
  end.

(** One round of the [forEach]: the two arrays [matches] and
    [alternatives] after [venue] is pushed to one of them. *)
Definition pushVenue (requirements : EventRequirements)
  (acc : option (list VenueMatch * list VenueMatch)) (venue : Venue)
  : option (list VenueMatch * list VenueMatch) :=
  match acc with
  | None => None
  | Some (matches, alts) =>
      match evaluateVenue requirements venue with
      | None => None
      | Some venueMatch =>
          if alternative venueMatch
          then Some (matches, (alts ++ [venueMatch])%list)
          else Some ((matches ++ [venueMatch])%list, alts)
      end
  end.

Definition classify (requirements : EventRequirements) (venues : list Venue)
  : option (list VenueMatch * list VenueMatch) :=
  fold_left (pushVenue requirements) venues (Some ([], [])).

(** [(a, b) => b.score - a.score] *)
Definition byScoreDesc (a b : VenueMatch) : Q := fsub (score b) (score a).

(** The comparator of the second sort, for high priority. *)
Definition bySmallestSuitable (a b : VenueMatch) : Q :=
  if Qlt_le_dec (Qabs (fsub (score a) (score b))) 10
  then fsub (inject_Z (area_sqft (venue a))) (inject_Z (area_sqft (venue b)))
  else fsub (score b) (score a).

(** [matches] as [findBestVenues] returns it. *)
Definition rankMatches (requirements : EventRequirements)
  (matches : list VenueMatch) : list VenueMatch :=
  let matches := JsArray.sort byScoreDesc matches in
  if isHigh (priority requirements) && (0 <? Z.of_nat (length matches))
  then JsArray.sort bySmallestSuitable matches
  else matches.

(** [alternatives] after its sort, before [slice]. *)
Definition rankAlternatives (alts : list VenueMatch) : list VenueMatch :=
  JsArray.sort byScoreDesc alts.

Definition findBestVenues (venues : list Venue)
  (requirements : EventRequirements) : option MatchResult :=
  match classify requirements venues with
  | None => None
  | Some (matches, alts) =>
      let matches := rankMatches requirements matches in
      let alts := rankAlternatives alts in
      Some {| exactMatches := matches;
              alternatives := JsArray.slice0 3 alts;
              noMatch :=
                (length matches =? 0)%nat && (length alts =? 0)%nat |}
  end.

Definition suggestions : list string :=
  ["09:00"; "10:00"; "11:00"; "14:00"; "15:00"; "16:00"].

(** [Math.abs(getTime(time) - getTime(bookedTime)) < 2 * 60 * 60 * 1000];
    a comparison with NaN is false. *)
Definition withinBuffer (time bookedTime : string) : bool :=
  match getTime time, getTime bookedTime with
  | Some a, Some b => Z.abs (a - b) <? 2 * 60 * 60 * 1000
  | _, _ => false
  end.

Definition bookedTimesOn (venue : Venue) (requestedDate : string)
  : list string :=
  JsArray.flat
    (map
       (fun slot =>
          match nth_error (JsString.split " " slot) 1 with
          | Some timeRange =>
              if JsString.truthy timeRange
              then JsString.split "-" timeRange else []
          | None => []
          end)
       (filter (fun slot => JsString.includes slot requestedDate)
          (JsArray.orEmpty (booked_slots venue)))).

Definition getSuggestedTimeSlots (venue : Venue) (requestedDate : string)
  : list string :=
  if JsArray.absentOrEmpty (booked_slots venue) then suggestions
  else
    let bookedTimes := bookedTimesOn venue requestedDate in
    filter
      (fun time => negb (JsArray.some (withinBuffer time) bookedTimes))
      suggestions.

End Algorithm.


(** ** Sample data

    A host in UTC whose parser reads [YYYY-MM-DD HH:MM], the lower-casing
    of ASCII strings, and venues seeded by the migrations. *)

Definition asciiStrings : StringApi :=
  {| toLowerCase := JsString.toLowerCase |}.

Definition utcHost : DateApi :=
  {| isoDate := fun s =>
       if (String.length s =? 16)%nat then Some (substring 0 10 s) else None;
     localeTime := fun s => substring 11 5 s |}.

Definition mainAuditorium : Venue :=
  {| name := "Main Auditorium"; capacity := 800; venue_type := "auditorium";
     area_sqft := 5000;
     facilities :=
       Some ["Stage"; "Projector"; "Sound System"; "AC"; "Lighting"];
     booked_slots := Some ["2025-09-26 10:00-12:00"] |}.

Definition seminarHallA : Venue :=
  {| name := "Seminar Hall A"; capacity := 200; venue_type := "seminar_hall";
     area_sqft := 2000;
     facilities := Some ["Projector"; "AC"; "Sound System"; "WiFi"];
     booked_slots := Some [] |}.

Definition computerLab1 : Venue :=
  {| name := "Computer Lab 1"; capacity := 60; venue_type := "computer_lab";
     area_sqft := 1200;
     facilities := Some ["Computers"; "High-Speed WiFi"; "AC"; "Projector"];
     booked_slots := Some [] |}.

Definition computerLab2 : Venue :=
  {| name := "Computer Lab 2"; capacity := 50; venue_type := "computer_lab";
     area_sqft := 1000;
     facilities := Some ["Computers"; "High-Speed WiFi"; "AC"];
     booked_slots := Some [] |}.

Definition classroom101 : Venue :=
  {| name := "Classroom Block 101"; capacity := 40; venue_type := "classroom";
     area_sqft := 900;
     facilities := Some ["Projector"; "Whiteboard"; "WiFi"];
     booked_slots := Some [] |}.

Definition cafeteriaHall : Venue :=
  {| name := "Cafeteria Hall"; capacity := 500; venue_type := "cafeteria";
     area_sqft := 3000;
     facilities := Some ["Seating"; "Food Stalls"; "Sound System"];
     booked_slots := Some [] |}.

Definition sampleCatalog : list Venue :=
  [mainAuditorium; seminarHallA; computerLab1; computerLab2; classroom101;
   cafeteriaHall].

Definition basketballCourt : Venue :=
  {| name := "Basketball Court"; capacity := 400;
     venue_type := "sports_court"; area_sqft := 4500;
     facilities := Some ["Open Space"; "Seating"; "Sound Setup Possible"];
     booked_slots := Some ["2025-09-26 09:00-11:00"] |}.

(** Two halls for 100 participants (600 sq ft): the larger one alone
    reaches the participant count in capacity.  Their scores under high
    priority, 196.66666666666666 and 186.66666666666669, are less than
    10 apart. *)
Definition bigHall : Venue :=
  {| name := "Big Hall"; capacity := 100; venue_type := "hall";
     area_sqft := 1000; facilities := Some []; booked_slots := Some [] |}.

Definition smallHall : Venue :=
  {| name := "Small Hall"; capacity := 90; venue_type := "hall";
     area_sqft := 700; facilities := Some []; booked_slots := Some [] |}.

(** The venue of the specification's scenarios: no facilities, no
    bookings. *)
Definition bareHall : Venue :=
  {| name := "Hall"; capacity := 100; venue_type := "hall";
     area_sqft := 1000; facilities := Some []; booked_slots := Some [] |}.

Definition closedHall : Venue :=
  {| name := "Hall"; capacity := 100; venue_type := "hall";
     area_sqft := 1000; facilities := None;
     booked_slots := Some ["2025-09-26 closed"] |}.

Definition bookedNineToTen (date : string) : Venue :=
  {| name := "Hall"; capacity := 100; venue_type := "hall";
     area_sqft := 1000; facilities := Some [];
     booked_slots := Some [date ++ " 09:00-10:00"] |}.

Definition request (n : Z) (fs : list string) (p : Priority)
  : EventRequirements :=
  {| participants := n; facilitiesRequired := fs;
     preferredDateTime := "2025-09-26 11:00"; priority := p;
     eventType := technical; spaceType := None |}.

(** Record updates, to vary one field and hold the others fixed. *)
Definition withCapacity (v : Venue) (c : Z) : Venue :=
  {| name := name v; capacity := c; venue_type := venue_type v;
     area_sqft := area_sqft v; facilities := facilities v;
     booked_slots := booked_slots v |}.

Definition withPriority (r : EventRequirements) (p : Priority)
  : EventRequirements :=
  {| participants := participants r;
     facilitiesRequired := facilitiesRequired r;
     preferredDateTime := preferredDateTime r; priority := p;
     eventType := eventType r; spaceType := spaceType r |}.

(** ** The specification's words

    The notions the specification uses, stated on their own, to compare
    with what the code computes. *)

Module Spec.

(** [sub] occurs in [s]. *)
Definition isSubstring (sub s : string) : Prop :=
  exists pre post, s = pre ++ sub ++ post.

(** Lexicographic order on the character codes. *)
Inductive lexLe : string -> string -> Prop :=
| lexLe_empty b : lexLe EmptyString b
| lexLe_less c d a b :
    (N_of_ascii c < N_of_ascii d)%N -> lexLe (String c a) (String d b)
| lexLe_same c a b : lexLe a b -> lexLe (String c a) (String c b).

(** A booking interval that makes the venue unavailable: its serialized
    form contains the requested date, and its second space-separated token
    splits on [-] into a start and an end (the first two parts) with
    [start <= requestedTime <= end]. *)
Definition blocks (requestedDate requestedTime slot : string) : Prop :=
  isSubstring requestedDate slot /\
  exists timeRange startTime endTime rest,
    nth_error (JsString.split " " slot) 1 = Some timeRange /\
    JsString.split "-" timeRange = startTime :: endTime :: rest /\
    lexLe startTime requestedTime /\ lexLe requestedTime endTime.

(** The bidirectional case-insensitive substring test of the facility
    evaluator. *)
Definition facilityMatch {str : StringApi} (required available : string)
  : Prop :=
  isSubstring (toLowerCase required) (toLowerCase available) \/
  isSubstring (toLowerCase available) (toLowerCase required).

End Spec.

(** ** Further notions for the properties of the code *)

Definition withFacilities (v : Venue) (fs : option (list string)) : Venue :=
  {| name := name v; capacity := capacity v; venue_type := venue_type v;
     area_sqft := area_sqft v; facilities := fs;
     booked_slots := booked_slots v |}.

Definition withSlots (v : Venue) (slots : option (list string)) : Venue :=
  {| name := name v; capacity := capacity v; venue_type := venue_type v;
     area_sqft := area_sqft v; facilities := facilities v;
     booked_slots := slots |}.

Definition withArea (v : Venue) (a : Z) : Venue :=
  {| name := name v; capacity := capacity v; venue_type := venue_type v;
     area_sqft := a; facilities := facilities v;
     booked_slots := booked_slots v |}.

(** The serialized form of a booking interval, as the migrations store it:
    [<date> <start>-<end>]. *)
Definition serializeSlot (date startTime endTime : string) : string :=
  date ++ " " ++ startTime ++ "-" ++ endTime.

(** [l1] is [l2] with some elements left out, the order kept. *)
Inductive subsequence {A : Type} : list A -> list A -> Prop :=
| subsequence_nil : subsequence [] []
| subsequence_skip x l1 l2 : subsequence l1 l2 -> subsequence l1 (x :: l2)
| subsequence_keep x l1 l2 :
    subsequence l1 l2 -> subsequence (x :: l1) (x :: l2).

(** [s] with [b] added when [cond] holds: one step of [calculateScore]. *)
Definition addWhen {fp : Binary64} (cond : bool) (b s : Q) : Q :=
  if cond then fadd s b else s.

(** How two exact matches compare under high priority, by whether each
    gets the capacity bonus ([gx], [gy]), for areas [ax], [ay] and scores
    [sx], [sy]: when the first is no larger, it scores no less if both are
    in the same group, and at least 10 more if only it gets the bonus. *)
Definition groupsAgree (gx gy : bool) (ax ay sx sy : Q) : Prop :=
  (ax <= ay)%Q ->
  if Bool.eqb gx gy then (sy <= sx)%Q
  else if gx then (10 <= sx - sy)%Q else True.

(** ** A host away from UTC

    A host whose local time is [offset] minutes ahead of UTC all the year
    (less than a day either way), and whose [Date] reads
    [YYYY-MM-DD HH:MM] as local time, as V8 does.  [toISOString] gives
    the date in UTC, [toLocaleTimeString] the time in local time (read
    here for the hours from 01 to 23). *)

Fixpoint digitsValue (acc : Z) (s : string) : option Z :=
  match s with
  | EmptyString => Some acc
  | String c s' =>
      match digit c with
      | Some d => digitsValue (10 * acc + d) s'
      | None => None
      end
  end.

Definition isLeapYear (y : Z) : bool :=
  ((y mod 4 =? 0) && negb (y mod 100 =? 0)) || (y mod 400 =? 0).

Definition daysInMonth (y m : Z) : Z :=
  if m =? 2 then (if isLeapYear y then 29 else 28)
  else if (m =? 4) || (m =? 6) || (m =? 9) || (m =? 11) then 30
  else 31.

Definition previousDay (ymd : Z * Z * Z) : Z * Z * Z :=
  let '(y, m, d) := ymd in
  if 1 <? d then (y, m, d - 1)
  else if 1 <? m then (y, m - 1, daysInMonth y (m - 1))
  else (y - 1, 12, 31).

Definition nextDay (ymd : Z * Z * Z) : Z * Z * Z :=
  let '(y, m, d) := ymd in
  if d <? daysInMonth y m then (y, m, d + 1)
  else if m <? 12 then (y, m + 1, 1)
  else (y + 1, 1, 1).

(** [n] in decimal, with zeros in front up to [width] digits. *)
Definition padZero (width : nat) (n : Z) : string :=
  let digits := JsString.ofInt n in
  (fix zeros (k : nat) : string :=
     match k with
     | O => digits
     | S k' => String "0" (zeros k')
     end) (width - String.length digits)%nat.

(** The fields of a well-formed [YYYY-MM-DD HH:MM]. *)
Definition readDateTime (s : string) : option (Z * Z * Z * Z * Z) :=
  if (String.length s =? 16)%nat
     && String.eqb (substring 4 1 s) "-" && String.eqb (substring 7 1 s) "-"
     && String.eqb (substring 10 1 s) " " && String.eqb (substring 13 1 s) ":"
  then
    match digitsValue 0 (substring 0 4 s), digitsValue 0 (substring 5 2 s),
          digitsValue 0 (substring 8 2 s), digitsValue 0 (substring 11 2 s),
          digitsValue 0 (substring 14 2 s) with
    | Some y, Some m, Some d, Some h, Some mi =>
        if (1 <=? m) && (m <=? 12) && (1 <=? d) && (d <=? daysInMonth y m)
           && (h <? 24) && (mi <? 60)
        then Some (y, m, d, h, mi) else None
    | _, _, _, _, _ => None
    end
  else None.

Definition offsetHost (offset : Z) : DateApi :=
  {| isoDate := fun s =>
       match readDateTime s with
       | Some (y, m, d, h, mi) =>
           let minutes := h * 60 + mi - offset in
           let '(y', m', d') :=
             if minutes <? 0 then previousDay (y, m, d)
             else if 1440 <=? minutes then nextDay (y, m, d)
             else (y, m, d) in
           Some (padZero 4 y' ++ "-" ++ padZero 2 m' ++ "-" ++ padZero 2 d')
       | None => None
       end;
     localeTime := fun s =>
       match readDateTime s with
       | Some (_, _, _, h, mi) => padZero 2 h ++ ":" ++ padZero 2 mi
       | None => "Invalid Date"
       end |}.

(** * Properties *)

(** ** Strings *)

Lemma prefix_iff (a s : string) :
  String.prefix a s = true <-> exists post, s = a ++ post.
Proof.
  revert s; induction a as [|c a IH]; intros s.
  - split; [intros _; now exists s | intros _; now destruct s].
  - destruct s as [|d s]; simpl.
    + split; [discriminate | intros [post H]; discriminate].
    + destruct (ascii_dec c d) as [->|Hne].
      * rewrite IH. split; intros [post H]; exists post; congruence.
      * split; [discriminate | intros [post H]; congruence].
Qed.

Lemma includes_iff (s sub : string) :
  JsString.includes s sub = true <-> Spec.isSubstring sub s.
Proof.
  unfold Spec.isSubstring.
  induction s as [|c s IH]; cbn [JsString.includes].
  - rewrite orb_false_r, prefix_iff. split.
    + intros [post H]. now exists EmptyString, post.
    + intros [[|d pre] [post H]]; [now exists post | discriminate].
  - rewrite orb_true_iff, prefix_iff, IH. split.
    + intros [[post H] | [pre [post H]]].
      * now exists EmptyString, post.
      * exists (String c pre), post. simpl. now rewrite H.
    + intros [[|d pre] [post H]].
      * left. now exists post.
      * right. exists pre, post. simpl in H. congruence.
Qed.

Lemma leb_iff (a b : string) : JsString.le a b = true <-> Spec.lexLe a b.
Proof.
  unfold JsString.le, String.leb.
  revert b; induction a as [|c a IH]; intros [|d b]; simpl.
  - split; [constructor | reflexivity].
  - split; [constructor | reflexivity].
  - split; [discriminate | inversion 1].
  - unfold Ascii.compare.
    destruct (N.compare_spec (N_of_ascii c) (N_of_ascii d)) as [He|Hl|Hg].
    + assert (c = d) as ->.
      { rewrite <- (ascii_N_embedding c), <- (ascii_N_embedding d).
        now rewrite He. }
      rewrite IH. split; [now constructor 3 | ].
      inversion 1; subst; [lia | assumption].
    + split; [intros _; now constructor 2 | reflexivity].
    + split; [discriminate | ].
      inversion 1; subst; lia.
Qed.

Lemma split_nonempty (sep : ascii) (s : string) : JsString.split sep s <> [].
Proof.
  destruct s as [|c s]; simpl; [discriminate | ].
  destruct (Ascii.eqb c sep); [discriminate | ].
  destruct (JsString.split sep s); discriminate.
Qed.

Lemma split_without (sep : ascii) (s : string) :
  JsString.includes s (String sep EmptyString) = false ->
  JsString.split sep s = [s].
Proof.
  induction s as [|c s IH]; simpl; [reflexivity | ].
  destruct (ascii_dec sep c) as [->|Hne].
  - destruct s; discriminate.
  - intros H. apply Ascii.eqb_neq in Hne. rewrite Ascii.eqb_sym in Hne.
    rewrite Hne, IH; [reflexivity | assumption].
Qed.

Lemma split_two_includes (sep : ascii) (s a b : string) (rest : list string) :
  JsString.split sep s = a :: b :: rest ->
  JsString.truthy s = true /\
  JsString.includes s (String sep EmptyString) = true.
Proof.
  intros H. split.
  - destruct s; [discriminate | reflexivity].
  - destruct (JsString.includes s (String sep EmptyString)) eqn:E;
      [reflexivity | ].
    rewrite (split_without _ _ E) in H. discriminate.
Qed.

(** ** Availability *)

Lemma slotConflicts_iff (requestedDate requestedTime slot : string) :
  slotConflicts requestedDate requestedTime slot = true <->
  Spec.blocks requestedDate requestedTime slot.
Proof.
  unfold slotConflicts, Spec.blocks.
  rewrite <- includes_iff.
  destruct (JsString.includes slot requestedDate);
    [ | split; [discriminate | intros [H _]; discriminate]].
  destruct (nth_error (JsString.split " " slot) 1) as [timeRange|];
    [ | split; [discriminate | intros [_ (tr & s & e & r & H & _)]; discriminate]].
  split.
  - intros H. split; [reflexivity | ].
    destruct (JsString.truthy timeRange && JsString.includes timeRange "-");
      [ | discriminate].
    destruct (JsString.split "-" timeRange) as [|s [|e r]] eqn:Hsplit;
      try discriminate.
    apply andb_true_iff in H. destruct H as [Hs He].
    exists timeRange, s, e, r. rewrite <- !leb_iff. auto.
  - intros [_ (tr & s & e & r & Htr & Hsplit & Hs & He)].
    injection Htr as <-.
    destruct (split_two_includes _ _ _ _ _ Hsplit) as [-> ->].
    rewrite Hsplit. simpl. apply andb_true_iff. rewrite !leb_iff. auto.
Qed.

Lemma some_app {A : Type} (p : A -> bool) (l1 l2 : list A) :
  JsArray.some p (l1 ++ l2) = JsArray.some p l1 || JsArray.some p l2.
Proof. apply existsb_app. Qed.

Section Availability.
Context {host : DateApi}.

Lemma isVenueAvailable_when_dated (v : Venue) (dt d : string) :
  isoDate dt = Some d ->
  isVenueAvailable v dt =
  Some (negb (JsArray.some (slotConflicts d (localeTime dt))
                (JsArray.orEmpty (booked_slots v)))).
Proof.
  intros Hd. unfold isVenueAvailable. rewrite Hd.
  destruct (booked_slots v) as [[|s l]|]; reflexivity.
Qed.

(** What [isVenueAvailable] decides, in the two strings the host's [Date]
    yields for the request: [d], the date part of [toISOString], which is
    the date in UTC, and [localeTime dt], the wall-clock time in the
    host's time zone.  It returns [false] exactly when some booked slot
    contains [d] as a substring and has a second space-separated token
    that splits on [-] into a start and an end with
    [start <= localeTime dt <= end] in lexicographic order, and returns
    [true] exactly when no slot does; a venue whose booked slots are absent
    or empty is available for every requested date-time. *)
Theorem isVenueAvailable_iff_no_blocking_slot (v : Venue) (dt : string) :
  (JsArray.absentOrEmpty (booked_slots v) = true ->
   isVenueAvailable v dt = Some true) /\
  (forall d, isoDate dt = Some d ->
     let blocked :=
       exists slot, In slot (JsArray.orEmpty (booked_slots v)) /\
                    Spec.blocks d (localeTime dt) slot in
     (isVenueAvailable v dt = Some false <-> blocked) /\
     (isVenueAvailable v dt = Some true <-> ~ blocked)).
Proof.
  split.
  - intros H. unfold isVenueAvailable. now rewrite H.
  - intros d Hd blocked.
    assert (Hb : JsArray.some (slotConflicts d (localeTime dt))
                   (JsArray.orEmpty (booked_slots v)) = true <-> blocked).
    { unfold JsArray.some, blocked. rewrite existsb_exists.
      split; intros [slot [Hin H]]; exists slot; split; trivial;
        now apply slotConflicts_iff. }
    rewrite (isVenueAvailable_when_dated v dt d Hd).
    destruct (JsArray.some _ _); simpl.
    + assert (Hyes : blocked) by now apply Hb.
      split; split; try discriminate; try contradiction; auto.
    + assert (Hno : ~ blocked) by (intros Hk; apply Hb in Hk; discriminate).
      split; split; try discriminate; try contradiction; auto.
Qed.

(** C9.  A booked slot that contains the requested date but has no second
    space-separated token, or one without a [-], is no conflict: the
    callback answers [false] on it, and the availability of a venue that
    holds it is a value, the one the other slots decide. *)
Theorem malformed_slot_is_no_conflict (d t slot : string) :
  Spec.isSubstring d slot ->
  (nth_error (JsString.split " " slot) 1 = None \/
   exists timeRange,
     nth_error (JsString.split " " slot) 1 = Some timeRange /\
     ~ Spec.isSubstring "-" timeRange) ->
  slotConflicts d t slot = false /\
  forall (v : Venue) (dt : string) (before after : list string),
    isoDate dt = Some d -> localeTime dt = t ->
    booked_slots v = Some (before ++ slot :: after)%list ->
    isVenueAvailable v dt =
    Some (negb (JsArray.some (slotConflicts d t) (before ++ after)%list)).
Proof.
  intros Hsub Htok.
  assert (Hslot : slotConflicts d t slot = false).
  { unfold slotConflicts. apply includes_iff in Hsub. rewrite Hsub.
    destruct Htok as [-> | (tr & -> & Hno)]; [reflexivity | ].
    destruct (JsString.includes tr "-") eqn:E.
    - exfalso. apply Hno. now apply includes_iff.
    - now rewrite andb_false_r. }
  split; [exact Hslot | ].
  intros v dt before after Hd Ht Hv.
  rewrite (isVenueAvailable_when_dated v dt d Hd), Ht, Hv. simpl.
  rewrite !some_app. simpl. now rewrite Hslot.
Qed.

End Availability.

Lemma isVenueAvailable_iff_no_blocking_slot_witness :
  (JsArray.absentOrEmpty (booked_slots seminarHallA) = true /\
   @isVenueAvailable utcHost seminarHallA "2025-09-26 11:00" = Some true) /\
  (@isoDate utcHost "2025-09-26 11:00" = Some "2025-09-26" /\
   (@isVenueAvailable utcHost mainAuditorium "2025-09-26 11:00" = Some false
    <-> exists slot,
          In slot (JsArray.orEmpty (booked_slots mainAuditorium)) /\
          Spec.blocks "2025-09-26" "11:00" slot)).
Proof.
  split.
  - split; [reflexivity | ].
    apply (proj1 (@isVenueAvailable_iff_no_blocking_slot utcHost seminarHallA
                    "2025-09-26 11:00")).
    reflexivity.
  - split; [reflexivity | ].
    exact (proj1 (proj2 (@isVenueAvailable_iff_no_blocking_slot utcHost
                           mainAuditorium "2025-09-26 11:00")
                    "2025-09-26" eq_refl)).
Defined.

(** C2.  On a host ten hours ahead of UTC, the Basketball Court, booked
    on 2025-09-26 from 09:00 to 11:00, is reported available for
    2025-09-26 09:00, and unavailable for 2025-09-27 09:00, a day none of
    its slots contains: the date compared with the slots is the UTC date
    of the request, the day before the calendar date requested, while
    the time is the local one. *)
Theorem isVenueAvailable_compares_the_utc_date :
  @isoDate (offsetHost 600) "2025-09-26 09:00" = Some "2025-09-25" /\
  @localeTime (offsetHost 600) "2025-09-26 09:00" = "09:00" /\
  (In "2025-09-26 09:00-11:00" (JsArray.orEmpty (booked_slots basketballCourt))
   /\ Spec.blocks "2025-09-26" "09:00" "2025-09-26 09:00-11:00") /\
  @isVenueAvailable (offsetHost 600) basketballCourt "2025-09-26 09:00"
    = Some true /\
  (forall slot, In slot (JsArray.orEmpty (booked_slots basketballCourt)) ->
                ~ Spec.isSubstring "2025-09-27" slot) /\
  @isVenueAvailable (offsetHost 600) basketballCourt "2025-09-27 09:00"
    = Some false.
Proof.
  split; [reflexivity | ]. split; [reflexivity | ].
  split; [ | split; [reflexivity | split; [ | reflexivity]]].
  - split; [left; reflexivity | ].
    apply slotConflicts_iff. reflexivity.
  - intros slot [<-|[]] H. apply includes_iff in H. discriminate.
Qed.

Lemma malformed_slot_is_no_conflict_witness :
  slotConflicts "2025-09-26" "11:00" "2025-09-26 closed" = false /\
  @isVenueAvailable utcHost closedHall "2025-09-26 11:00" = Some true.
Proof.
  assert (Hsub : Spec.isSubstring "2025-09-26" "2025-09-26 closed")
    by (apply includes_iff; reflexivity).
  assert (Htok :
    nth_error (JsString.split " " "2025-09-26 closed") 1 = None \/
    exists timeRange,
      nth_error (JsString.split " " "2025-09-26 closed") 1 = Some timeRange /\
      ~ Spec.isSubstring "-" timeRange).
  { right. exists "closed". split; [reflexivity | ].
    intros H. apply includes_iff in H. discriminate. }
  destruct (@malformed_slot_is_no_conflict utcHost "2025-09-26" "11:00"
              "2025-09-26 closed" Hsub Htok) as [H1 H2].
  split; [exact H1 | ].
  exact (H2 closedHall "2025-09-26 11:00" [] [] eq_refl eq_refl eq_refl).
Defined.

(** ** Rounding to the nearest double *)

Section Rounding.
Local Open Scope Q_scope.

Lemma roundHalfEven_compat (x y : Q) :
  x == y -> Double.roundHalfEven x = Double.roundHalfEven y.
Proof.
  intros H. unfold Double.roundHalfEven.
  rewrite (Qfloor_comp _ _ H).
  assert (Hc : (x - inject_Z (Qfloor y) ?= 1 # 2) = (y - inject_Z (Qfloor y) ?= 1 # 2))
    by (now rewrite H).
  now rewrite Hc.
Qed.

Lemma roundHalfEven_Z (n : Z) : Double.roundHalfEven (inject_Z n) = n.
Proof.
  unfold Double.roundHalfEven. rewrite Qfloor_Z.
  assert (H : (inject_Z n - inject_Z n ?= 1 # 2) = Lt).
  { apply Qlt_alt. unfold Qminus. rewrite Qplus_opp_r. reflexivity. }
  now rewrite H.
Qed.

Lemma roundHalfEven_monotone (x y : Q) :
  x <= y -> (Double.roundHalfEven x <= Double.roundHalfEven y)%Z.
Proof.
  intros H. unfold Double.roundHalfEven.
  pose proof (Qfloor_resp_le _ _ H) as Hf.
  pose proof (Qfloor_le x) as Hx1. pose proof (Qlt_floor x) as Hx2.
  pose proof (Qfloor_le y) as Hy1. pose proof (Qlt_floor y) as Hy2.
  destruct (Z.eq_dec (Qfloor x) (Qfloor y)) as [E|E].
  - rewrite <- E in *.
    destruct (Qcompare_spec (x - inject_Z (Qfloor x)) (1 # 2)) as [Cx|Cx|Cx];
    destruct (Qcompare_spec (y - inject_Z (Qfloor x)) (1 # 2)) as [Cy|Cy|Cy];
      try (destruct (Z.even (Qfloor x))); try lia; exfalso; lra.
  - assert (Hlt : (Qfloor x + 1 <= Qfloor y)%Z) by lia.
    destruct (Qcompare (x - inject_Z (Qfloor x)) (1 # 2));
    destruct (Qcompare (y - inject_Z (Qfloor y)) (1 # 2));
      try (destruct (Z.even (Qfloor x))); try (destruct (Z.even (Qfloor y)));
      lia.
Qed.

Lemma pow2_pos (e : Z) : 0 < 2 ^ e.
Proof. apply Qpower_0_lt. reflexivity. Qed.

Lemma pow2_add (a b : Z) : 2 ^ (a + b) == 2 ^ a * 2 ^ b.
Proof. apply Qpower_plus. discriminate. Qed.

Lemma pow2_le (a b : Z) : (a <= b)%Z -> 2 ^ a <= 2 ^ b.
Proof. intros H. apply Qpower_le_compat_l; [exact H | discriminate]. Qed.

Lemma pow2_lt_inv (a b : Z) : 2 ^ a < 2 ^ b -> (a < b)%Z.
Proof. intros H. apply (Qpower_lt_compat_l_inv 2); [exact H | reflexivity]. Qed.

Lemma pow2_Z (n : Z) : (0 <= n)%Z -> inject_Z (2 ^ n) == 2 ^ n.
Proof. intros H. now rewrite Zpower_Qpower. Qed.

(** The binade of a positive number. *)
Lemma exponent_spec (x : Q) :
  0 < x -> 2 ^ Double.exponent x <= x /\ x < 2 ^ (Double.exponent x + 1).
Proof.
  intros Hx. unfold Double.exponent.
  destruct x as [p q]. cbn [Qnum Qden].
  assert (Hp : (0 < p)%Z) by (unfold Qlt in Hx; simpl in Hx; lia).
  set (lp := Z.log2 p). set (lq := Z.log2 (Z.pos q)).
  destruct (Z.log2_spec p Hp) as [Hp1 Hp2]. fold lp in Hp1, Hp2.
  destruct (Z.log2_spec (Z.pos q) ltac:(lia)) as [Hq1 Hq2]. fold lq in Hq1, Hq2.
  assert (Hlp : (0 <= lp)%Z) by apply Z.log2_nonneg.
  assert (Hlq : (0 <= lq)%Z) by apply Z.log2_nonneg.
  assert (Ex : p # q == inject_Z p / inject_Z (Z.pos q)) by apply Qmake_Qdiv.
  assert (Hqpos : 0 < inject_Z (Z.pos q)) by (unfold Qlt; simpl; lia).
  assert (E1 : 2 ^ (lp - lq) == inject_Z (2 ^ lp) / inject_Z (2 ^ lq)).
  { rewrite !pow2_Z by assumption. apply Qpower_minus. discriminate. }
  assert (Hlqpos : 0 < inject_Z (2 ^ lq)) by (unfold Qlt; simpl; lia).
  destruct (Qle_bool (2 ^ (lp - lq)) (p # q)) eqn:B.
  - apply Qle_bool_iff in B. split; [exact B | ].
    rewrite pow2_add, E1, Ex.
    apply Qlt_shift_div_r; [exact Hqpos | ].
    unfold Qdiv. 
    setoid_replace (inject_Z (2 ^ lp) * / inject_Z (2 ^ lq) * 2 ^ 1 * inject_Z (Z.pos q))
      with ((inject_Z (2 ^ lp) * 2 * inject_Z (Z.pos q)) / inject_Z (2 ^ lq))
      by (unfold Qdiv; change (2 ^ 1) with 2; ring).
    apply Qlt_shift_div_l; [exact Hlqpos | ].
    rewrite <- !inject_Z_mult. change 2 with (inject_Z 2).
    rewrite <- !inject_Z_mult, <- Zlt_Qlt.
    replace (lp + 1)%Z with (Z.succ lp) in Hp2 by lia. rewrite Z.pow_succ_r in Hp2 by lia.
    nia.
  - assert (B' : p # q < 2 ^ (lp - lq)).
    { apply Qnot_le_lt. intros H. apply Qle_bool_iff in H. congruence. }
    split.
    + replace (lp - lq - 1)%Z with ((lp - lq) + -1)%Z by lia.
      rewrite pow2_add, E1, Ex.
      apply Qle_shift_div_l; [exact Hqpos | ].
      setoid_replace (inject_Z (2 ^ lp) / inject_Z (2 ^ lq) * 2 ^ (-1) * inject_Z (Z.pos q))
        with ((inject_Z (2 ^ lp) * inject_Z (Z.pos q)) / (2 * inject_Z (2 ^ lq)))
        by (change (2 ^ (-1)) with (/ 2); field; lra).
      apply Qle_shift_div_r; [lra | ].
      change 2 with (inject_Z 2).
      rewrite <- !inject_Z_mult, <- Zle_Qle.
      replace (lq + 1)%Z with (Z.succ lq) in Hq2 by lia. rewrite Z.pow_succ_r in Hq2 by lia.
      nia.
    + replace (lp - lq - 1 + 1)%Z with (lp - lq)%Z by lia. exact B'.
Qed.

Lemma exponent_unique (x : Q) (e : Z) :
  2 ^ e <= x -> x < 2 ^ (e + 1) -> Double.exponent x = e.
Proof.
  intros H1 H2.
  assert (Hx : 0 < x) by (pose proof (pow2_pos e); lra).
  destruct (exponent_spec x Hx) as [H3 H4].
  assert (A : (Double.exponent x < e + 1)%Z) by (apply pow2_lt_inv; lra).
  assert (B : (e < Double.exponent x + 1)%Z) by (apply pow2_lt_inv; lra).
  lia.
Qed.

Lemma exponent_compat (x y : Q) :
  0 < x -> x == y -> Double.exponent x = Double.exponent y.
Proof.
  intros Hx E. destruct (exponent_spec x Hx) as [H1 H2].
  symmetry. apply exponent_unique; rewrite <- E; assumption.
Qed.

Lemma exponent_monotone (x y : Q) :
  0 < x -> x <= y -> (Double.exponent x <= Double.exponent y)%Z.
Proof.
  intros Hx H. destruct (exponent_spec x Hx) as [H1 _].
  destruct (exponent_spec y ltac:(lra)) as [_ H2].
  assert (A : (Double.exponent x < Double.exponent y + 1)%Z)
    by (apply pow2_lt_inv; lra).
  lia.
Qed.

Lemma exponent_ge (x : Q) (e : Z) :
  2 ^ e <= x -> (e <= Double.exponent x)%Z.
Proof.
  intros H. assert (Hx : 0 < x) by (pose proof (pow2_pos e); lra).
  destruct (exponent_spec x Hx) as [_ H2].
  assert (A : (e < Double.exponent x + 1)%Z) by (apply pow2_lt_inv; lra).
  lia.
Qed.

(** The significand, scaled to an integer of 53 bits. *)
Lemma significand_bounds (x : Q) :
  0 < x ->
  2 ^ 52 <= x * 2 ^ (52 - Double.exponent x) /\
  x * 2 ^ (52 - Double.exponent x) < 2 ^ 53.
Proof.
  intros Hx. destruct (exponent_spec x Hx) as [H1 H2].
  set (e := Double.exponent x) in *.
  pose proof (pow2_pos (52 - e)) as Hp.
  assert (E1 : 2 ^ 52 == 2 ^ e * 2 ^ (52 - e))
    by (rewrite <- pow2_add; now replace (e + (52 - e))%Z with 52%Z by lia).
  assert (E2 : 2 ^ 53 == 2 ^ (e + 1) * 2 ^ (52 - e))
    by (rewrite <- pow2_add; now replace (e + 1 + (52 - e))%Z with 53%Z by lia).
  rewrite E1, E2. split.
  - apply Qmult_le_compat_r; lra.
  - apply Qmult_lt_compat_r; lra.
Qed.

Lemma rounded_significand_bounds (x : Q) :
  0 < x ->
  (2 ^ 52 <= Double.roundHalfEven (x * 2 ^ (52 - Double.exponent x)) <= 2 ^ 53)%Z.
Proof.
  intros Hx. destruct (significand_bounds x Hx) as [H1 H2].
  split.
  - rewrite <- (roundHalfEven_Z (2 ^ 52)).
    apply roundHalfEven_monotone. exact H1.
  - rewrite <- (roundHalfEven_Z (2 ^ 53)).
    apply roundHalfEven_monotone. apply Qlt_le_weak. exact H2.
Qed.

Lemma roundPos_compat (x y : Q) :
  0 < x -> x == y -> Double.roundPos x == Double.roundPos y.
Proof.
  intros Hx E. unfold Double.roundPos.
  rewrite <- (exponent_compat x y Hx E).
  assert (Em : x * 2 ^ (52 - Double.exponent x) == y * 2 ^ (52 - Double.exponent x))
    by (apply Qmult_comp; [exact E | reflexivity]).
  now rewrite (roundHalfEven_compat _ _ Em).
Qed.

Lemma roundPos_range (x : Q) :
  0 < x ->
  2 ^ Double.exponent x <= Double.roundPos x <= 2 ^ (Double.exponent x + 1).
Proof.
  intros Hx. destruct (rounded_significand_bounds x Hx) as [H1 H2].
  unfold Double.roundPos. set (e := Double.exponent x) in *.
  set (M := Double.roundHalfEven (x * 2 ^ (52 - e))) in *.
  pose proof (pow2_pos (e - 52)) as Hp.
  assert (E1 : 2 ^ e == inject_Z (2 ^ 52) * 2 ^ (e - 52)).
  { rewrite pow2_Z by lia. rewrite <- pow2_add.
    now replace (52 + (e - 52))%Z with e by lia. }
  assert (E2 : 2 ^ (e + 1) == inject_Z (2 ^ 53) * 2 ^ (e - 52)).
  { rewrite pow2_Z by lia. rewrite <- pow2_add.
    now replace (53 + (e - 52))%Z with (e + 1)%Z by lia. }
  rewrite E1, E2. split; apply Qmult_le_compat_r; try lra;
    now rewrite <- Zle_Qle.
Qed.

Lemma roundPos_positive (x : Q) : 0 < x -> 0 < Double.roundPos x.
Proof.
  intros Hx. destruct (roundPos_range x Hx) as [H _].
  pose proof (pow2_pos (Double.exponent x)). lra.
Qed.

Lemma roundPos_monotone (x y : Q) :
  0 < x -> x <= y -> Double.roundPos x <= Double.roundPos y.
Proof.
  intros Hx H. assert (Hy : 0 < y) by lra.
  pose proof (exponent_monotone x y Hx H) as He.
  destruct (Z.eq_dec (Double.exponent x) (Double.exponent y)) as [E|E].
  - unfold Double.roundPos. rewrite <- E.
    pose proof (pow2_pos (Double.exponent x - 52)) as Hp.
    pose proof (pow2_pos (52 - Double.exponent x)) as Hp'.
    apply Qmult_le_compat_r; [ | lra].
    rewrite <- Zle_Qle. apply roundHalfEven_monotone.
    apply Qmult_le_compat_r; lra.
  - destruct (roundPos_range x Hx) as [_ H1].
    destruct (roundPos_range y Hy) as [H2 _].
    assert (H3 : 2 ^ (Double.exponent x + 1) <= 2 ^ Double.exponent y)
      by (apply pow2_le; lia).
    lra.
Qed.

(** A number with a significand below 2^53 is a double. *)
Lemma roundPos_exact (k e : Z) :
  (0 < k < 2 ^ 53)%Z ->
  Double.roundPos (inject_Z k * 2 ^ e) == inject_Z k * 2 ^ e.
Proof.
  intros [Hk1 Hk2].
  destruct (Z.log2_spec k Hk1) as [L1 L2]. set (l := Z.log2 k) in *.
  assert (Hl0 : (0 <= l)%Z) by apply Z.log2_nonneg.
  assert (Hl : (l <= 52)%Z).
  { assert (2 ^ l < 2 ^ 53)%Z by lia.
    apply Z.pow_lt_mono_r_iff in H; lia. }
  pose proof (pow2_pos e) as Hpe.
  assert (Hx : 0 < inject_Z k * 2 ^ e).
  { apply Qmult_lt_0_compat; [ | exact Hpe]. unfold Qlt. simpl. lia. }
  assert (Hexp : Double.exponent (inject_Z k * 2 ^ e) = (l + e)%Z).
  { apply exponent_unique.
    - rewrite pow2_add, <- (pow2_Z l) by lia.
      apply Qmult_le_compat_r; [now rewrite <- Zle_Qle | lra].
    - replace (l + e + 1)%Z with ((l + 1) + e)%Z by lia.
      rewrite pow2_add, <- (pow2_Z (l + 1)) by lia.
      apply Qmult_lt_compat_r; [lra | now rewrite <- Zlt_Qlt]. }
  unfold Double.roundPos. rewrite Hexp.
  assert (Em : inject_Z k * 2 ^ e * 2 ^ (52 - (l + e)) ==
               inject_Z (k * 2 ^ (52 - l))).
  { rewrite inject_Z_mult, pow2_Z by lia.
    rewrite <- Qmult_assoc, <- pow2_add.
    now replace (e + (52 - (l + e)))%Z with (52 - l)%Z by lia. }
  rewrite (roundHalfEven_compat _ _ Em), roundHalfEven_Z.
  rewrite inject_Z_mult, pow2_Z by lia.
  rewrite <- Qmult_assoc, <- pow2_add.
  now replace (52 - l + (l + e - 52))%Z with e by lia.
Qed.

Lemma roundPos_grid (x : Q) (e : Z) :
  2 ^ e <= x ->
  exists k : Z, Double.roundPos x == inject_Z k * 2 ^ (e - 52).
Proof.
  intros H. pose proof (exponent_ge x e H) as He.
  unfold Double.roundPos. set (ex := Double.exponent x) in *.
  set (M := Double.roundHalfEven (x * 2 ^ (52 - ex))).
  exists (M * 2 ^ (ex - e))%Z.
  rewrite inject_Z_mult, pow2_Z by lia.
  rewrite <- Qmult_assoc, <- pow2_add.
  now replace (ex - e + (e - 52))%Z with (ex - 52)%Z by lia.
Qed.

Lemma roundPos_idempotent (x : Q) :
  0 < x -> Double.roundPos (Double.roundPos x) == Double.roundPos x.
Proof.
  intros Hx. destruct (rounded_significand_bounds x Hx) as [H1 H2].
  unfold Double.roundPos at 2 3. set (e := Double.exponent x) in *.
  set (M := Double.roundHalfEven (x * 2 ^ (52 - e))) in *.
  destruct (Z.eq_dec M (2 ^ 53)) as [E|E].
  - assert (Ev : inject_Z M * 2 ^ (e - 52) == inject_Z 1 * 2 ^ (e + 1)).
    { rewrite E, pow2_Z by lia. rewrite <- pow2_add.
      replace (53 + (e - 52))%Z with (e + 1)%Z by lia.
      change (inject_Z 1) with 1. ring. }
    assert (Hpos : 0 < inject_Z M * 2 ^ (e - 52)).
    { rewrite Ev. pose proof (pow2_pos (e + 1)). change (inject_Z 1) with 1. lra. }
    rewrite (roundPos_compat _ _ Hpos Ev), Ev.
    apply roundPos_exact. lia.
  - apply roundPos_exact. lia.
Qed.

(** The laws, for [Double.round]. *)

Lemma round_compat (x y : Q) : x == y -> Double.round x == Double.round y.
Proof.
  intros E. unfold Double.round.
  assert (Hc : (x ?= 0) = (y ?= 0)) by now rewrite E.
  rewrite <- Hc.
  destruct (Qcompare_spec x 0) as [C|C|C].
  - reflexivity.
  - apply Qopp_comp, roundPos_compat; [lra | now rewrite E].
  - apply roundPos_compat; assumption.
Qed.

Lemma round_pos (x : Q) : 0 < x -> Double.round x = Double.roundPos x.
Proof.
  intros H. unfold Double.round.
  assert (C : (x ?= 0) = Gt) by (apply Qgt_alt; exact H).
  now rewrite C.
Qed.

Lemma round_neg (x : Q) : x < 0 -> Double.round x = - Double.roundPos (- x).
Proof.
  intros H. unfold Double.round.
  assert (C : (x ?= 0) = Lt) by (apply Qlt_alt; exact H).
  now rewrite C.
Qed.

Lemma round_zero (x : Q) : x == 0 -> Double.round x = 0.
Proof.
  intros H. unfold Double.round.
  assert (C : (x ?= 0) = Eq) by (apply Qeq_alt; exact H).
  now rewrite C.
Qed.

Lemma round_positive (x : Q) : 0 < x -> 0 < Double.round x.
Proof. intros H. rewrite (round_pos x H). now apply roundPos_positive. Qed.

Lemma round_odd (x : Q) : Double.round (- x) == - Double.round x.
Proof.
  destruct (Q_dec x 0) as [[C|C]|C].
  - rewrite (round_neg x C), (round_pos (- x)) by lra. ring.
  - rewrite (round_pos x C), (round_neg (- x)) by lra.
    apply Qopp_comp, roundPos_compat; [lra | ring].
  - rewrite (round_zero x C), (round_zero (- x)) by lra. reflexivity.
Qed.

Lemma round_monotone (x y : Q) : x <= y -> Double.round x <= Double.round y.
Proof.
  intros H.
  destruct (Q_dec x 0) as [[Cx|Cx]|Cx]; destruct (Q_dec y 0) as [[Cy|Cy]|Cy];
    try (exfalso; lra).
  - rewrite (round_neg x Cx), (round_neg y Cy).
    apply Qopp_le_compat, roundPos_monotone; lra.
  - rewrite (round_neg x Cx).
    pose proof (roundPos_positive (- x) ltac:(lra)).
    pose proof (round_positive y Cy). lra.
  - rewrite (round_neg x Cx), (round_zero y Cy).
    pose proof (roundPos_positive (- x) ltac:(lra)). lra.
  - rewrite (round_pos x Cx), (round_pos y Cy).
    now apply roundPos_monotone.
  - rewrite (round_zero x Cx). pose proof (round_positive y Cy). lra.
  - rewrite (round_zero x Cx), (round_zero y Cy). lra.
Qed.

Lemma round_exact (k e : Z) :
  (Z.abs k < 2 ^ 53)%Z ->
  Double.round (inject_Z k * 2 ^ e) == inject_Z k * 2 ^ e.
Proof.
  intros Hk. pose proof (pow2_pos e) as Hp.
  destruct (Z.lt_trichotomy k 0) as [C|[C|C]].
  - assert (E : - (inject_Z k * 2 ^ e) == inject_Z (- k) * 2 ^ e)
      by (rewrite inject_Z_opp; ring).
    assert (Hpos : 0 < inject_Z (- k) * 2 ^ e).
    { apply Qmult_lt_0_compat; [ | exact Hp]. unfold Qlt. simpl. lia. }
    assert (Hneg : inject_Z k * 2 ^ e < 0).
    { rewrite <- E in Hpos. set (z := inject_Z k * 2 ^ e) in *. lra. }
    assert (Hpos' : 0 < - (inject_Z k * 2 ^ e)) by now rewrite E.
    rewrite (round_neg _ Hneg).
    rewrite (roundPos_compat _ _ Hpos' E), roundPos_exact by lia.
    rewrite inject_Z_opp. ring.
  - subst k. rewrite round_zero; [ring | ring].
  - assert (Hpos : 0 < inject_Z k * 2 ^ e).
    { apply Qmult_lt_0_compat; [ | exact Hp]. unfold Qlt. simpl. lia. }
    rewrite (round_pos _ Hpos). apply roundPos_exact. lia.
Qed.

Lemma round_grid (x : Q) (e : Z) :
  2 ^ e <= Qabs x ->
  exists k : Z, Double.round x == inject_Z k * 2 ^ (e - 52).
Proof.
  intros H. pose proof (pow2_pos e) as Hp.
  destruct (Q_dec x 0) as [[C|C]|C].
  - rewrite (round_neg x C).
    rewrite Qabs_neg in H by lra.
    destruct (roundPos_grid (- x) e H) as [k Hk].
    exists (- k)%Z. rewrite Hk, inject_Z_opp. ring.
  - rewrite (round_pos x C). rewrite Qabs_pos in H by lra.
    now apply roundPos_grid.
  - exfalso. rewrite C in H. change (Qabs 0) with 0 in H. lra.
Qed.

Lemma round_idempotent (x : Q) :
  Double.round (Double.round x) == Double.round x.
Proof.
  destruct (Q_dec x 0) as [[C|C]|C].
  - rewrite (round_neg x C).
    rewrite round_odd, (round_pos (Double.roundPos (- x))).
    + apply Qopp_comp, roundPos_idempotent. lra.
    + apply roundPos_positive. lra.
  - rewrite (round_pos x C), round_pos.
    + now apply roundPos_idempotent.
    + now apply roundPos_positive.
  - rewrite !(round_zero x C). now rewrite round_zero.
Qed.

End Rounding.

Lemma binary64_laws : Binary64Laws binary64.
Proof.
  constructor; simpl.
  - apply round_compat.
  - apply round_monotone.
  - apply round_odd.
  - apply round_positive.
  - apply round_exact.
  - apply round_grid.
  - apply round_idempotent.
Qed.

(** ** Arithmetic on doubles *)

Section ArithmeticFacts.
Context {fp : Binary64} {fpl : Binary64Laws fp}.
Local Open Scope Q_scope.

#[global] Instance fl_proper : Proper (Qeq ==> Qeq) fl.
Proof. intros x y. apply fl_compat. Qed.

#[global] Instance fadd_proper : Proper (Qeq ==> Qeq ==> Qeq) fadd.
Proof. intros x x' Hx y y' Hy. unfold fadd. now rewrite Hx, Hy. Qed.

#[global] Instance fsub_proper : Proper (Qeq ==> Qeq ==> Qeq) fsub.
Proof. intros x x' Hx y y' Hy. unfold fsub. now rewrite Hx, Hy. Qed.

Lemma fl_int (n : Z) : (Z.abs n < 2 ^ 53)%Z -> fl (inject_Z n) == inject_Z n.
Proof.
  intros H. pose proof (fl_exact n 0 H) as E.
  assert (En : inject_Z n * 2 ^ 0 == inject_Z n) by (change (2 ^ 0) with 1; ring).
  now rewrite En in E.
Qed.

Lemma fl_zero : fl 0 == 0.
Proof. apply (fl_int 0). reflexivity. Qed.

Lemma fl_nonneg (x : Q) : 0 <= x -> 0 <= fl x.
Proof. intros H. rewrite <- fl_zero. now apply fl_monotone. Qed.

Lemma fl_nonpos_iff (x : Q) : fl x <= 0 <-> x <= 0.
Proof.
  split; intros H.
  - apply Qnot_lt_le. intros Hx. apply fl_positive in Hx. lra.
  - rewrite <- fl_zero. now apply fl_monotone.
Qed.

Lemma fl_lower (x : Q) (n : Z) :
  (Z.abs n < 2 ^ 53)%Z -> inject_Z n <= x -> inject_Z n <= fl x.
Proof. intros Hn H. rewrite <- (fl_int n Hn). now apply fl_monotone. Qed.

Lemma fl_upper (x : Q) (n : Z) :
  (Z.abs n < 2 ^ 53)%Z -> x <= inject_Z n -> fl x <= inject_Z n.
Proof. intros Hn H. rewrite <- (fl_int n Hn). now apply fl_monotone. Qed.

Lemma fadd_monotone (x x' y y' : Q) :
  x <= x' -> y <= y' -> fadd x y <= fadd x' y'.
Proof. intros Hx Hy. apply fl_monotone. lra. Qed.

Lemma fsub_monotone (x x' y y' : Q) :
  x <= x' -> y' <= y -> fsub x y <= fsub x' y'.
Proof. intros Hx Hy. apply fl_monotone. lra. Qed.

(** Adding a number that is not negative to a double does not lower it. *)
Lemma fadd_ge (s b : Q) : fl s == s -> 0 <= b -> s <= fadd s b.
Proof.
  intros Hs Hb. rewrite <- Hs at 1. apply fl_monotone. lra.
Qed.

Lemma fadd_int (n m : Z) :
  (Z.abs (n + m) < 2 ^ 53)%Z ->
  fadd (inject_Z n) (inject_Z m) == inject_Z (n + m).
Proof.
  intros H. unfold fadd. rewrite <- inject_Z_plus. now apply fl_int.
Qed.

(** One step of the score. *)
Lemma addWhen_compat (cond : bool) (b s s' : Q) :
  s == s' -> addWhen cond b s == addWhen cond b s'.
Proof.
  intros E. unfold addWhen. destruct cond; [ | exact E]. now rewrite E.
Qed.

Lemma addWhen_monotone (cond : bool) (b s s' : Q) :
  s <= s' -> addWhen cond b s <= addWhen cond b s'.
Proof.
  intros H. unfold addWhen. destruct cond; [ | exact H].
  apply fadd_monotone; lra.
Qed.

Lemma addWhen_double (cond : bool) (b s : Q) :
  fl s == s -> fl (addWhen cond b s) == addWhen cond b s.
Proof.
  intros H. unfold addWhen, fadd. destruct cond; [ | exact H].
  apply fl_idempotent.
Qed.

Lemma addWhen_ge (cond : bool) (b s : Q) :
  fl s == s -> 0 <= b -> s <= addWhen cond b s.
Proof.
  intros Hs Hb. unfold addWhen. destruct cond; [ | lra].
  now apply fadd_ge.
Qed.

Lemma addWhen_switch (b s : Q) :
  fl s == s -> 0 <= b -> addWhen false b s <= addWhen true b s.
Proof. intros Hs Hb. now apply (addWhen_ge true). Qed.

Lemma addWhen_between (cond : bool) (b lo hi : Z) (s : Q) :
  (0 <= b)%Z -> (Z.abs lo < 2 ^ 53)%Z -> (Z.abs (hi + b) < 2 ^ 53)%Z ->
  inject_Z lo <= s <= inject_Z hi ->
  inject_Z lo <= addWhen cond (inject_Z b) s <= inject_Z (hi + b).
Proof.
  intros Hb Hlo Hhi [H1 H2]. unfold addWhen, fadd.
  assert (Hb' : 0 <= inject_Z b) by (change 0 with (inject_Z 0); now rewrite <- Zle_Qle).
  destruct cond.
  - split.
    + apply fl_lower; [exact Hlo | lra].
    + apply fl_upper; [exact Hhi | rewrite inject_Z_plus; lra].
  - split; [exact H1 | rewrite inject_Z_plus; lra].
Qed.

Lemma fadd_lower (lo b : Z) (s : Q) :
  (Z.abs (lo + b) < 2 ^ 53)%Z ->
  inject_Z lo <= s -> inject_Z (lo + b) <= fadd s (inject_Z b).
Proof.
  intros Hb H. unfold fadd.
  apply fl_lower; [exact Hb | rewrite inject_Z_plus; lra].
Qed.

Lemma addWhen_lower (cond : bool) (b lo : Z) (s : Q) :
  (0 <= b)%Z -> (Z.abs lo < 2 ^ 53)%Z ->
  inject_Z lo <= s -> inject_Z lo <= addWhen cond (inject_Z b) s.
Proof.
  intros Hb Hlo H. unfold addWhen, fadd. destruct cond; [ | exact H].
  assert (Hb' : 0 <= inject_Z b)
    by (change 0 with (inject_Z 0); now rewrite <- Zle_Qle).
  apply fl_lower; [exact Hlo | lra].
Qed.

Lemma addWhen_int (cond : bool) (b n : Z) :
  (Z.abs (n + b) < 2 ^ 53)%Z ->
  addWhen cond (inject_Z b) (inject_Z n) ==
  inject_Z (if cond then n + b else n).
Proof.
  intros H. unfold addWhen. destruct cond; [now apply fadd_int | reflexivity].
Qed.

(** Up to 256 in size a number is less than 2^-44 from its double. *)
Lemma fl_near (x : Q) :
  -256 <= x <= 256 ->
  x - (1 # 17592186044416) <= fl x <= x + (1 # 17592186044416).
Proof.
  intros [Hlo Hhi].
  set (k := Qfloor (x * 17592186044416)).
  pose proof (Qfloor_le (x * 17592186044416)) as H1.
  pose proof (Qlt_floor (x * 17592186044416)) as H2.
  fold k in H1, H2. rewrite inject_Z_plus in H2.
  change (inject_Z 1) with 1 in H2.
  assert (Hk : (- 2 ^ 52 <= k <= 2 ^ 52)%Z).
  { change (2 ^ 52)%Z with 4503599627370496%Z. split.
    - assert (H : inject_Z (- 4503599627370496 - 1) < inject_Z k).
      { change (inject_Z (- 4503599627370496 - 1)) with (- 4503599627370497).
        lra. }
      rewrite <- Zlt_Qlt in H. lia.
    - assert (H : inject_Z k <= inject_Z 4503599627370496).
      { change (inject_Z 4503599627370496) with 4503599627370496. lra. }
      now rewrite <- Zle_Qle in H. }
  assert (P : (2 ^ 53 = 9007199254740992)%Z) by reflexivity.
  assert (P' : (2 ^ 52 = 4503599627370496)%Z) by reflexivity.
  assert (G : 2 ^ (-44) == 1 # 17592186044416) by reflexivity.
  pose proof (fl_exact k (-44) ltac:(lia)) as E1.
  pose proof (fl_exact (k + 1) (-44) ltac:(lia)) as E2.
  rewrite inject_Z_plus in E2. change (inject_Z 1) with 1 in E2.
  assert (L : fl (inject_Z k * 2 ^ (-44)) <= fl x).
  { apply fl_monotone. rewrite G. lra. }
  assert (U : fl x <= fl ((inject_Z k + 1) * 2 ^ (-44))).
  { apply fl_monotone. rewrite G. lra. }
  rewrite E1 in L. rewrite E2 in U. rewrite G in L, U. lra.
Qed.

(** Rounding two such numbers brings them at most 2^-43 closer. *)
Lemma fl_gap (x y d : Q) :
  -256 <= x <= 256 -> -256 <= y <= 256 -> d <= y - x ->
  d - (1 # 8796093022208) <= fl y - fl x.
Proof.
  intros Hx Hy Hd.
  pose proof (fl_near x Hx). pose proof (fl_near y Hy). lra.
Qed.

Lemma addWhen_gap (cond : bool) (b lo hi : Z) (s s' d : Q) :
  (0 <= b)%Z -> (-256 <= lo)%Z -> (hi + b <= 256)%Z ->
  inject_Z lo <= s <= inject_Z hi -> inject_Z lo <= s' <= inject_Z hi ->
  d <= s - s' ->
  d - (1 # 8796093022208) <=
  addWhen cond (inject_Z b) s - addWhen cond (inject_Z b) s'.
Proof.
  intros Hb Hlo Hhi Hs Hs' Hd. unfold addWhen, fadd.
  destruct cond; [ | lra].
  assert (B0 : 0 <= inject_Z b)
    by (change 0 with (inject_Z 0); now rewrite <- Zle_Qle).
  assert (B1 : -256 <= inject_Z lo)
    by (change (-256) with (inject_Z (-256)); now rewrite <- Zle_Qle).
  assert (B2 : inject_Z hi + inject_Z b <= 256).
  { rewrite <- inject_Z_plus. change 256 with (inject_Z 256).
    now rewrite <- Zle_Qle. }
  apply fl_gap; lra.
Qed.

End ArithmeticFacts.

(** ** Scores *)

Lemma inject_Z_pos (z : Z) : 0 < z -> (0 < inject_Z z)%Q.
Proof. intros H. unfold Qlt. simpl. lia. Qed.

Lemma quotient_ge_1 (area required : Z) :
  0 < required -> required <= area ->
  (1 <= inject_Z area / inject_Z required)%Q.
Proof.
  intros Hr Ha. apply Qle_shift_div_l; [now apply inject_Z_pos | ].
  rewrite Qmult_1_l. now rewrite <- Zle_Qle.
Qed.

Lemma quotient_le (required a b : Z) :
  0 < required -> a <= b ->
  (inject_Z a / inject_Z required <= inject_Z b / inject_Z required)%Q.
Proof.
  intros Hr Hab. unfold Qdiv.
  apply Qmult_le_compat_r; [now rewrite <- Zle_Qle | ].
  apply Qinv_le_0_compat, Qlt_le_weak, inject_Z_pos, Hr.
Qed.

Section Scores.
Context {fp : Binary64} {fpl : Binary64Laws fp}.

(** The area term of the score. *)
#[local] Abbreviation areaTerm area required :=
  (Qmax 0 (fsub 100
             (fmul (fsub (fdiv (inject_Z area) (inject_Z required)) 1) 20))).

(** [calculateScore], step by step. *)
Lemma calculateScore_steps (v : Venue) (r : EventRequirements)
  (isAvailable hasFac areaMatch : bool) :
  calculateScore v r isAvailable hasFac areaMatch =
  addWhen (isHigh (priority r)) 10
    (addWhen (capacity v >=? participants r) 20
       (addWhen hasFac 30
          (addWhen isAvailable 50
             (addWhen areaMatch
                (areaTerm (area_sqft v)
                          (calculateRequiredArea (participants r)))
                0)))).
Proof. reflexivity. Qed.

Lemma efficiency_ge_1 (area required : Z) :
  0 < required -> required <= area ->
  (1 <= fdiv (inject_Z area) (inject_Z required))%Q.
Proof.
  intros Hr Ha. apply (fl_lower _ 1); [reflexivity | ].
  now apply quotient_ge_1.
Qed.

Lemma areaTerm_nonneg (area required : Z) :
  (0 <= areaTerm area required)%Q.
Proof. apply Q.le_max_l. Qed.

Lemma areaTerm_bounds (area required : Z) :
  0 < required -> required <= area ->
  (0 <= areaTerm area required <= 100)%Q.
Proof.
  intros Hr Ha. pose proof (efficiency_ge_1 area required Hr Ha) as He.
  split; [apply Q.le_max_l | ].
  apply Q.max_lub; [lra | ].
  set (e := fdiv (inject_Z area) (inject_Z required)) in *.
  assert (H1 : (0 <= fsub e 1)%Q) by (apply fl_nonneg; lra).
  assert (H2 : (0 <= fmul (fsub e 1) 20)%Q) by (apply fl_nonneg; lra).
  apply (fl_upper _ 100); [reflexivity | ].
  change (inject_Z 100) with 100%Q. lra.
Qed.

(** The area term does not grow with the area. *)
Lemma areaTerm_antitone (required a b : Z) :
  0 < required -> a <= b ->
  (areaTerm b required <= areaTerm a required)%Q.
Proof.
  intros Hr Hab. apply Q.max_le_compat_l.
  apply fsub_monotone; [lra | ].
  apply fl_monotone.
  assert (H : (fsub (fdiv (inject_Z a) (inject_Z required)) 1 <=
               fsub (fdiv (inject_Z b) (inject_Z required)) 1)%Q).
  { apply fsub_monotone; [ | lra].
    apply fl_monotone. now apply quotient_le. }
  lra.
Qed.

(** The score after the area step is a double. *)
Lemma area_step_double (areaMatch : bool) (t : Q) :
  (fl (addWhen areaMatch t 0) == addWhen areaMatch t 0)%Q.
Proof. apply addWhen_double, fl_zero. Qed.

Lemma area_step_bounds (areaMatch : bool) (area required : Z) :
  0 < required -> (areaMatch = true -> required <= area) ->
  (0 <= addWhen areaMatch (areaTerm area required) 0 <= 100)%Q.
Proof.
  intros Hr Ha. unfold addWhen, fadd. destruct areaMatch; [ | lra].
  destruct (areaTerm_bounds area required Hr (Ha eq_refl)) as [H0 H100].
  split.
  - apply fl_nonneg. lra.
  - apply (fl_upper _ 100); [reflexivity | ].
    change (inject_Z 100) with 100%Q. lra.
Qed.

(** C7.  For a positive participant count and [areaMatch] as
    [findBestVenues] computes it (true only when the venue's area reaches
    the required area), the score lies between 0 and 210. *)
Theorem calculateScore_bounds (v : Venue) (r : EventRequirements)
  (isAvailable hasFac areaMatch : bool) :
  0 < participants r ->
  (areaMatch = true ->
   calculateRequiredArea (participants r) <= area_sqft v) ->
  (0 <= calculateScore v r isAvailable hasFac areaMatch <= 210)%Q.
Proof.
  intros Hp Ha. rewrite calculateScore_steps.
  assert (Hr : 0 < calculateRequiredArea (participants r))
    by (unfold calculateRequiredArea; lia).
  pose proof (area_step_bounds areaMatch _ _ Hr Ha) as H0.
  apply (addWhen_between _ 10 0 200); [lia | reflexivity | reflexivity | ].
  apply (addWhen_between _ 20 0 180); [lia | reflexivity | reflexivity | ].
  apply (addWhen_between _ 30 0 150); [lia | reflexivity | reflexivity | ].
  apply (addWhen_between _ 50 0 100); [lia | reflexivity | reflexivity | ].
  exact H0.
Qed.

(** C8.  With everything else fixed, the score does not decrease when
    [areaMatch], [isAvailable] or [hasFacilities] goes from false to true,
    when the capacity comes to reach the participant count, or when the
    priority becomes [high]. *)
Theorem calculateScore_monotone (v : Venue) (r : EventRequirements)
  (isAvailable hasFac areaMatch : bool) :
  0 < participants r ->
  (calculateScore v r isAvailable hasFac false <=
   calculateScore v r isAvailable hasFac true)%Q /\
  (calculateScore v r false hasFac areaMatch <=
   calculateScore v r true hasFac areaMatch)%Q /\
  (calculateScore v r isAvailable false areaMatch <=
   calculateScore v r isAvailable true areaMatch)%Q /\
  (forall c, capacity v < participants r -> participants r <= c ->
     (calculateScore v r isAvailable hasFac areaMatch <=
      calculateScore (withCapacity v c) r isAvailable hasFac areaMatch)%Q) /\
  (calculateScore v r isAvailable hasFac areaMatch <=
   calculateScore v (withPriority r high) isAvailable hasFac areaMatch)%Q.
Proof.
  intros _. rewrite !calculateScore_steps.
  cbn [withCapacity withPriority area_sqft capacity participants priority].
  set (t := areaTerm (area_sqft v) (calculateRequiredArea (participants r))).
  assert (Ht : (0 <= t)%Q) by apply areaTerm_nonneg.
  assert (D0 : forall am, (fl (addWhen am t 0) == addWhen am t 0)%Q)
    by (intros am; apply area_step_double).
  assert (D1 : forall am av,
    (fl (addWhen av 50 (addWhen am t 0)) == addWhen av 50 (addWhen am t 0))%Q)
    by (intros; apply addWhen_double, D0).
  assert (D2 : forall am av hf,
    (fl (addWhen hf 30 (addWhen av 50 (addWhen am t 0))) ==
     addWhen hf 30 (addWhen av 50 (addWhen am t 0)))%Q)
    by (intros; apply addWhen_double, D1).
  assert (D3 : forall am av hf cap,
    (fl (addWhen cap 20 (addWhen hf 30 (addWhen av 50 (addWhen am t 0)))) ==
     addWhen cap 20 (addWhen hf 30 (addWhen av 50 (addWhen am t 0))))%Q)
    by (intros; apply addWhen_double, D2).
  repeat split.
  - do 4 apply addWhen_monotone. apply addWhen_switch; [apply fl_zero | exact Ht].
  - do 3 apply addWhen_monotone. apply addWhen_switch; [apply D0 | lra].
  - do 2 apply addWhen_monotone. apply addWhen_switch; [apply D1 | lra].
  - intros c Hlt Hle. rewrite calculateScore_steps.
    cbn [withCapacity area_sqft capacity]. fold t.
    replace (capacity v >=? participants r) with false by (symmetry; lia).
    replace (c >=? participants r) with true by (symmetry; lia).
    apply addWhen_monotone. apply addWhen_switch; [apply D2 | lra].
  - destruct (isHigh (priority r)); [apply Qle_refl | ].
    apply addWhen_switch; [apply D3 | lra].
Qed.

End Scores.

Lemma calculateScore_bounds_witness :
  0 < participants (request 100 ["WiFi"] high) /\
  (0 <= calculateScore (fp := binary64) seminarHallA
          (request 100 ["WiFi"] high) true true
          (area_sqft seminarHallA >=? calculateRequiredArea 100) <= 210)%Q.
Proof.
  split; [reflexivity | ].
  apply (calculateScore_bounds (fpl := binary64_laws)); [reflexivity | ].
  intros _. vm_compute. discriminate.
Defined.

Lemma calculateScore_monotone_witness :
  0 < participants (request 100 ["WiFi"] medium) /\
  (calculateScore (fp := binary64) computerLab1
     (request 100 ["WiFi"] medium) true true false <=
   calculateScore (fp := binary64) computerLab1
     (request 100 ["WiFi"] medium) true true true)%Q.
Proof.
  split; [reflexivity | ].
  exact (proj1 (calculateScore_monotone (fpl := binary64_laws) computerLab1
                  (request 100 ["WiFi"] medium) true true true eq_refl)).
Defined.

(** ** Sorting *)

Section SortFacts.
Context {A : Type} (compareFn : A -> A -> Q).

#[local] Abbreviation precedes := (JsArray.precedes compareFn).

Lemma insert_perm (x : A) (l : list A) :
  Permutation (JsArray.insert compareFn x l) (x :: l).
Proof.
  induction l as [|y l IH]; simpl; [reflexivity | ].
  destruct (Qle_bool (compareFn x y) 0); [reflexivity | ].
  rewrite IH. apply perm_swap.
Qed.

Lemma sort_perm (l : list A) : Permutation (JsArray.sort compareFn l) l.
Proof.
  induction l as [|x l IH]; simpl; [reflexivity | ].
  unfold JsArray.sort in IH. rewrite insert_perm. now constructor.
Qed.

Lemma sort_In (x : A) (l : list A) :
  In x (JsArray.sort compareFn l) <-> In x l.
Proof.
  split; apply Permutation_in;
    [apply sort_perm | apply Permutation_sym, sort_perm].
Qed.

Lemma sort_length (l : list A) : length (JsArray.sort compareFn l) = length l.
Proof. apply Permutation_length, sort_perm. Qed.

(** On a set of elements where the comparator is a total preorder, the
    result is sorted: every element precedes every later one. *)
Section Consistent.
Variable dom : A -> Prop.
Hypothesis precedes_total :
  forall x y, dom x -> dom y -> precedes x y \/ precedes y x.
Hypothesis precedes_trans :
  forall x y z, dom x -> dom y -> dom z ->
                precedes x y -> precedes y z -> precedes x z.

Lemma insert_sorted (x : A) (l : list A) :
  dom x -> Forall dom l -> StronglySorted precedes l ->
  StronglySorted precedes (JsArray.insert compareFn x l).
Proof.
  intros Hx Hl Hs. induction Hs as [|y l Hs IH Hy]; simpl.
  - repeat constructor.
  - inversion Hl as [|? ? Hdy Hdl]; subst.
    destruct (Qle_bool (compareFn x y) 0) eqn:E.
    + constructor; [now constructor | ].
      constructor; [exact E | ].
      rewrite Forall_forall in *. intros z Hz.
      apply (precedes_trans x y z); auto.
    + constructor; [now apply IH | ].
      apply (Permutation_Forall (Permutation_sym (insert_perm x l))).
      constructor; [ | exact Hy].
      destruct (precedes_total x y Hx Hdy) as [H|H]; [ | exact H].
      unfold JsArray.precedes in H. congruence.
Qed.

Lemma sort_sorted (l : list A) :
  Forall dom l -> StronglySorted precedes (JsArray.sort compareFn l).
Proof.
  induction 1 as [|x l Hx Hl IH]; simpl; [constructor | ].
  apply insert_sorted; trivial.
  apply (Permutation_Forall (Permutation_sym (sort_perm l))). exact Hl.
Qed.

End Consistent.
End SortFacts.

Lemma StronglySorted_weaken {A : Type} (R R' : A -> A -> Prop) (l : list A) :
  StronglySorted R l -> (forall a b, R a b -> R' a b) -> StronglySorted R' l.
Proof.
  intros H HR. induction H as [|a l H IH Ha]; constructor; trivial.
  rewrite Forall_forall in *. auto.
Qed.

Lemma StronglySorted_pair {A : Type} (R : A -> A -> Prop)
  (l1 l2 l3 : list A) (x y : A) :
  StronglySorted R (l1 ++ x :: l2 ++ y :: l3) -> R x y.
Proof.
  induction l1 as [|z l1 IH]; simpl; intros H.
  - apply StronglySorted_inv in H. destruct H as [_ H].
    rewrite Forall_forall in H. apply H.
    apply in_or_app. right. now left.
  - apply StronglySorted_inv in H. now apply IH.
Qed.

(** ** Classification *)

Section Ranking.
Context {host : DateApi} {fp : Binary64} {fpl : Binary64Laws fp}
        {str : StringApi}.

(** What the [forEach] callback records for a venue. *)
Lemma evaluateVenue_inv (r : EventRequirements) (v : Venue) (m : VenueMatch) :
  evaluateVenue r v = Some m ->
  exists isAvailable,
    isVenueAvailable v (preferredDateTime r) = Some isAvailable /\
    let requiredArea := calculateRequiredArea (participants r) in
    let areaMatch := area_sqft v >=? requiredArea in
    let hasFac := hasFacilities v (facilitiesRequired r) in
    venue m = v /\
    score m = calculateScore v r isAvailable hasFac areaMatch /\
    reason m = reasonFor v r requiredArea areaMatch isAvailable hasFac /\
    alternative m = negb areaMatch || negb isAvailable || negb hasFac.
Proof.
  unfold evaluateVenue.
  destruct (isVenueAvailable v (preferredDateTime r)) as [av|];
    [ | discriminate].
  intros H. injection H as <-. exists av. simpl. auto.
Qed.

(** A record with [alternative = false] was built with all three
    conditions true. *)
Lemma exact_match_score (r : EventRequirements) (m : VenueMatch) :
  evaluateVenue r (venue m) = Some m -> alternative m = false ->
  score m = calculateScore (venue m) r true true true /\
  calculateRequiredArea (participants r) <= area_sqft (venue m).
Proof.
  intros E A.
  destruct (evaluateVenue_inv _ _ _ E) as (av & _ & _ & Hs & _ & Halt).
  rewrite A in Halt. symmetry in Halt.
  apply orb_false_iff in Halt. destruct Halt as [Halt Hf].
  apply orb_false_iff in Halt. destruct Halt as [Ham Hav].
  apply negb_false_iff in Hf, Ham, Hav.
  rewrite Hs, Hf, Ham, Hav. split; [reflexivity | lia].
Qed.

Lemma fold_pushVenue_None (r : EventRequirements) (vs : list Venue) :
  fold_left (pushVenue r) vs None = None.
Proof. induction vs as [|v vs IH]; simpl; auto. Qed.

Lemma fold_pushVenue (r : EventRequirements) (vs : list Venue) :
  forall ms alts ms' alts',
    fold_left (pushVenue r) vs (Some (ms, alts)) = Some (ms', alts') ->
    exists ms1 alts1,
      ms' = (ms ++ ms1)%list /\ alts' = (alts ++ alts1)%list /\
      Forall (fun m => evaluateVenue r (venue m) = Some m /\
                       alternative m = false) ms1 /\
      Forall (fun m => evaluateVenue r (venue m) = Some m /\
                       alternative m = true) alts1 /\
      Permutation (map venue ms1 ++ map venue alts1)%list vs.
Proof.
  induction vs as [|v vs IH]; simpl; intros ms alts ms' alts' H.
  - injection H as <- <-. exists [], []. rewrite !app_nil_r.
    repeat split; constructor.
  - destruct (evaluateVenue r v) as [m|] eqn:E;
      [ | rewrite fold_pushVenue_None in H; discriminate].
    assert (Hv : venue m = v).
    { destruct (evaluateVenue_inv _ _ _ E) as (av & _ & Hv & _). exact Hv. }
    destruct (alternative m) eqn:Ealt;
      apply IH in H; destruct H as (ms1 & alts1 & -> & -> & Hm & Ha & Hp).
    + exists ms1, (m :: alts1). rewrite <- app_assoc. simpl.
      repeat split; trivial.
      * constructor; [rewrite Hv; auto | exact Ha].
      * rewrite Hv. apply Permutation_sym, Permutation_cons_app.
        now apply Permutation_sym.
    + exists (m :: ms1), alts1. rewrite <- app_assoc. simpl.
      repeat split; trivial.
      * constructor; [rewrite Hv; auto | exact Hm].
      * rewrite Hv. now constructor.
Qed.

Lemma classify_inv (r : EventRequirements) (vs : list Venue)
  (ms alts : list VenueMatch) :
  classify r vs = Some (ms, alts) ->
  Forall (fun m => evaluateVenue r (venue m) = Some m /\
                   alternative m = false) ms /\
  Forall (fun m => evaluateVenue r (venue m) = Some m /\
                   alternative m = true) alts /\
  Permutation (map venue ms ++ map venue alts)%list vs.
Proof.
  intros H. apply fold_pushVenue in H.
  destruct H as (ms1 & alts1 & -> & -> & H). exact H.
Qed.

Lemma rankMatches_perm (r : EventRequirements) (ms : list VenueMatch) :
  Permutation (rankMatches r ms) ms.
Proof.
  unfold rankMatches.
  destruct (isHigh (priority r) && _); [ | apply sort_perm].
  etransitivity; apply sort_perm.
Qed.

(** The comparator of the first sort, read as an order. *)
Lemma byScoreDesc_precedes (a b : VenueMatch) :
  JsArray.precedes byScoreDesc a b <-> (score b <= score a)%Q.
Proof.
  unfold JsArray.precedes, byScoreDesc, fsub.
  rewrite Qle_bool_iff, fl_nonpos_iff. split; intros H; lra.
Qed.

Lemma byScoreDesc_sorted (l : list VenueMatch) :
  StronglySorted (fun a b => (score b <= score a)%Q)
    (JsArray.sort byScoreDesc l).
Proof.
  assert (H : StronglySorted (JsArray.precedes byScoreDesc)
                (JsArray.sort byScoreDesc l)).
  { apply (sort_sorted byScoreDesc (fun _ => True)).
    - intros x y _ _. rewrite !byScoreDesc_precedes. lra.
    - intros x y z _ _ _. rewrite !byScoreDesc_precedes. lra.
    - rewrite Forall_forall. trivial. }
  apply (StronglySorted_weaken _ _ _ H).
  intros a b. now rewrite byScoreDesc_precedes.
Qed.

Lemma findBestVenues_inv (venues : list Venue) (r : EventRequirements)
  (res : MatchResult) :
  findBestVenues venues r = Some res ->
  exists ms alts,
    classify r venues = Some (ms, alts) /\
    exactMatches res = rankMatches r ms /\
    alternatives res = firstn 3 (rankAlternatives alts).
Proof.
  unfold findBestVenues.
  destruct (classify r venues) as [[ms alts]|]; [ | discriminate].
  intros H. injection H as <-. exists ms, alts. auto.
Qed.

(** C1, amended.  The venues of the catalog are exactly the venues of
    [exactMatches] together with those of the alternatives bucket, the list
    of alternatives sorted by descending score of which the returned
    [alternatives] are the first three; no venue is both in [exactMatches]
    and in the bucket. *)
Theorem findBestVenues_partition (venues : list Venue)
  (r : EventRequirements) (res : MatchResult) :
  findBestVenues venues r = Some res ->
  exists bucket,
    StronglySorted (fun a b => (score b <= score a)%Q) bucket /\
    alternatives res = firstn 3 bucket /\
    Permutation (map venue (exactMatches res) ++ map venue bucket)%list venues
    /\
    forall v, ~ (In v (map venue (exactMatches res)) /\
                 In v (map venue bucket)).
Proof.
  intros H. destruct (findBestVenues_inv _ _ _ H) as (ms & alts & Hc & He & Ha).
  destruct (classify_inv _ _ _ _ Hc) as (Hms & Halts & Hp).
  exists (rankAlternatives alts). split; [apply byScoreDesc_sorted | ].
  split; [exact Ha | ]. rewrite He. split.
  - rewrite <- Hp. apply Permutation_app; apply Permutation_map.
    + apply rankMatches_perm.
    + apply sort_perm.
  - intros v [H1 H2].
    apply in_map_iff in H1. destruct H1 as (m1 & Hv1 & H1).
    apply in_map_iff in H2. destruct H2 as (m2 & Hv2 & H2).
    apply (Permutation_in _ (rankMatches_perm r ms)) in H1.
    apply sort_In in H2.
    rewrite Forall_forall in Hms, Halts.
    destruct (Hms _ H1) as [E1 A1]. destruct (Halts _ H2) as [E2 A2].
    rewrite Hv1 in E1. rewrite Hv2 in E2. congruence.
Qed.

(** C10.  Every entry of [exactMatches] has a score of at least 80. *)
Theorem exactMatches_score_at_least_80 (venues : list Venue)
  (r : EventRequirements) (res : MatchResult) :
  0 < participants r ->
  findBestVenues venues r = Some res ->
  Forall (fun m => (80 <= score m)%Q) (exactMatches res).
Proof.
  intros Hp H.
  destruct (findBestVenues_inv _ _ _ H) as (ms & alts & Hc & He & _).
  destruct (classify_inv _ _ _ _ Hc) as (Hms & _ & _).
  rewrite He. rewrite Forall_forall in *. intros m Hm.
  apply (Permutation_in _ (rankMatches_perm r ms)) in Hm.
  destruct (Hms _ Hm) as [E A].
  destruct (exact_match_score r m E A) as [-> _].
  rewrite calculateScore_steps.
  set (t := Qmax 0 _).
  assert (H0 : (inject_Z 0 <= addWhen true t 0)%Q).
  { unfold addWhen, fadd. apply fl_nonneg.
    pose proof (Q.le_max_l 0
      (fsub 100
         (fmul
            (fsub
               (fdiv (inject_Z (area_sqft (venue m)))
                  (inject_Z (calculateRequiredArea (participants r))))
               1)
            20))) as Ht.
    fold t in Ht. lra. }
  assert (H1 : (50 <= addWhen true 50 (addWhen true t 0))%Q)
    by (apply (fadd_lower 0 50); [reflexivity | exact H0]).
  assert (H2 : (80 <= addWhen true 30
                        (addWhen true 50 (addWhen true t 0)))%Q)
    by (apply (fadd_lower 50 30); [reflexivity | exact H1]).
  apply (addWhen_lower _ 10 80); [lia | reflexivity | ].
  apply (addWhen_lower _ 20 80); [lia | reflexivity | ].
  exact H2.
Qed.

(** C5, amended.  A venue without facilities, under a requirement that
    lists some, is pushed to the alternatives; its reason begins
    [Missing facilities:] when its area reaches the required area and it is
    available, and otherwise names the area or the booking. *)
Theorem no_facilities_is_alternative (v : Venue) (r : EventRequirements)
  (isAvailable : bool) (ms alts : list VenueMatch) :
  JsArray.absentOrEmpty (facilities v) = true ->
  facilitiesRequired r <> [] ->
  isVenueAvailable v (preferredDateTime r) = Some isAvailable ->
  exists m,
    pushVenue r (Some (ms, alts)) v = Some (ms, (alts ++ [m])%list) /\
    venue m = v /\ alternative m = true /\
    (calculateRequiredArea (participants r) <= area_sqft v ->
     isAvailable = true ->
     exists rest, reason m = "Missing facilities:" ++ rest) /\
    (area_sqft v < calculateRequiredArea (participants r) ->
     exists rest, reason m = "Too small:" ++ rest) /\
    (calculateRequiredArea (participants r) <= area_sqft v ->
     isAvailable = false ->
     reason m = "Venue is booked at requested time").
Proof.
  intros Hf Hr Hav.
  assert (Hhas : hasFacilities v (facilitiesRequired r) = false).
  { unfold hasFacilities. rewrite Hf.
    destruct (facilitiesRequired r); [contradiction | reflexivity]. }
  unfold pushVenue, evaluateVenue. rewrite Hav, Hhas. simpl.
  rewrite !orb_true_r. eexists. split; [reflexivity | ].
  simpl. repeat split.
  - intros Ha ->.
    replace (area_sqft v >=? calculateRequiredArea (participants r))
      with true by (symmetry; lia).
    unfold reasonFor. simpl. eexists. reflexivity.
  - intros Ha.
    replace (area_sqft v >=? calculateRequiredArea (participants r))
      with false by (symmetry; lia).
    unfold reasonFor. simpl. eexists. reflexivity.
  - intros Ha ->.
    replace (area_sqft v >=? calculateRequiredArea (participants r))
      with true by (symmetry; lia).
    reflexivity.
Qed.

(** ** The order of exact matches under high priority *)

#[local] Abbreviation areaTerm area required :=
  (Qmax 0 (fsub 100
             (fmul (fsub (fdiv (inject_Z area) (inject_Z required)) 1) 20))).

(** The score of an exact match before the capacity and priority bonuses:
    the area term, then 50 and 30. *)
#[local] Abbreviation baseScore area required :=
  (addWhen true 30 (addWhen true 50 (addWhen true (areaTerm area required) 0))).

#[local] Abbreviation isExactMatch r m :=
  (evaluateVenue r (venue m) = Some m /\ alternative m = false).

Lemma baseScore_bounds (area required : Z) :
  0 < required -> required <= area ->
  (80 <= baseScore area required <= 180)%Q.
Proof.
  intros Hr Ha.
  pose proof (area_step_bounds true area required Hr (fun _ => Ha)) as H0.
  set (s0 := addWhen true (areaTerm area required) 0) in *.
  change 0%Q with (inject_Z 0) in H0. change 100%Q with (inject_Z 100) in H0.
  pose proof (addWhen_between true 50 0 100 s0) as H1.
  specialize (H1 ltac:(lia) ltac:(reflexivity) ltac:(reflexivity) H0).
  pose proof (fadd_lower 0 50 s0 ltac:(reflexivity) (proj1 H0)) as L1.
  change (addWhen true (inject_Z 50) s0) with (addWhen true 50 s0) in H1.
  change (fadd s0 (inject_Z 50)) with (addWhen true 50 s0) in L1.
  set (s1 := addWhen true 50 s0) in *.
  pose proof (addWhen_between true 30 0 150 s1) as H2.
  specialize (H2 ltac:(lia) ltac:(reflexivity) ltac:(reflexivity) H1).
  pose proof (fadd_lower 50 30 s1 ltac:(reflexivity) L1) as L2.
  split; [exact L2 | exact (proj2 H2)].
Qed.

Lemma baseScore_antitone (required a b : Z) :
  0 < required -> a <= b ->
  (baseScore b required <= baseScore a required)%Q.
Proof.
  intros Hr Hab. do 2 apply addWhen_monotone.
  unfold addWhen. apply fadd_monotone; [apply Qle_refl | ].
  now apply areaTerm_antitone.
Qed.

(** The score of an exact match under high priority, step by step. *)
Lemma exact_match_score_high (r : EventRequirements) (m : VenueMatch) :
  priority r = high -> isExactMatch r m ->
  score m =
  addWhen true 10
    (addWhen (capacity (venue m) >=? participants r) 20
       (baseScore (area_sqft (venue m))
                  (calculateRequiredArea (participants r)))) /\
  calculateRequiredArea (participants r) <= area_sqft (venue m).
Proof.
  intros Hh [E A]. destruct (exact_match_score r m E A) as [-> Ha].
  rewrite calculateScore_steps, Hh. split; [reflexivity | exact Ha].
Qed.

Lemma required_area_pos (r : EventRequirements) :
  0 < participants r -> 0 < calculateRequiredArea (participants r).
Proof. unfold calculateRequiredArea. lia. Qed.

(** Such a score lies between 90 and 210, on the grid of the doubles of
    that size: it is a multiple of 2^-46. *)
Lemma exact_match_score_range (r : EventRequirements) (m : VenueMatch) :
  priority r = high -> 0 < participants r -> isExactMatch r m ->
  (90 <= score m <= 210)%Q /\
  exists k : Z, (score m == inject_Z k * 2 ^ (6 - 52))%Q.
Proof.
  intros Hh Hp Hm. destruct (exact_match_score_high r m Hh Hm) as [-> Ha].
  pose proof (baseScore_bounds _ _ (required_area_pos r Hp) Ha) as Hb.
  set (u := baseScore _ _) in *.
  change 80%Q with (inject_Z 80) in Hb. change 180%Q with (inject_Z 180) in Hb.
  pose proof (addWhen_between (capacity (venue m) >=? participants r)
                20 80 180 u ltac:(lia) ltac:(reflexivity) ltac:(reflexivity)
                Hb) as Hc.
  change (inject_Z 20) with 20%Q in Hc.
  set (c := addWhen _ 20 u) in *.
  pose proof (addWhen_between true 10 80 200 c ltac:(lia) ltac:(reflexivity)
                ltac:(reflexivity) Hc) as Hd.
  pose proof (fadd_lower 80 10 c ltac:(reflexivity) (proj1 Hc)) as Hl.
  change (inject_Z 10) with 10%Q in Hd, Hl.
  split.
  - split; [exact Hl | exact (proj2 Hd)].
  - unfold addWhen at 1. unfold fadd. apply fl_grid.
    destruct Hc as [Hc _]. change (inject_Z 80) with 80%Q in Hc.
    rewrite Qabs_pos by lra. change (2 ^ 6)%Q with 64%Q. lra.
Qed.


(** The difference of two such scores is a double: the subtraction of the
    comparator does not round. *)
Lemma exact_match_scores_subtract (r : EventRequirements) (x y : VenueMatch) :
  priority r = high -> 0 < participants r ->
  isExactMatch r x -> isExactMatch r y ->
  (fsub (score x) (score y) == score x - score y)%Q.
Proof.
  intros Hh Hp Hx Hy.
  destruct (exact_match_score_range r x Hh Hp Hx) as [[Lx Ux] [kx Ex]].
  destruct (exact_match_score_range r y Hh Hp Hy) as [[Ly Uy] [ky Ey]].
  assert (Hk : Z.abs (kx - ky) < 2 ^ 53).
  { rewrite Ex in Lx, Ux. rewrite Ey in Ly, Uy.
    change (2 ^ (6 - 52))%Q with (/ 70368744177664)%Q in Lx, Ux, Ly, Uy.
    change (2 ^ 53) with 9007199254740992.
    unfold Qle, Qmult, Qinv in Lx, Ux, Ly, Uy. simpl in Lx, Ux, Ly, Uy.
    lia. }
  unfold fsub.
  assert (E : (score x - score y == inject_Z (kx - ky) * 2 ^ (6 - 52))%Q).
  { rewrite Ex, Ey. set (p := (2 ^ (6 - 52))%Q).
    unfold Z.sub. rewrite inject_Z_plus, inject_Z_opp. ring. }
  rewrite E. now apply fl_exact.
Qed.

(** Within one capacity group the score does not grow with the area. *)
Lemma same_group_order (r : EventRequirements) (x y : VenueMatch) :
  priority r = high -> 0 < participants r ->
  isExactMatch r x -> isExactMatch r y ->
  (capacity (venue x) >=? participants r) =
  (capacity (venue y) >=? participants r) ->
  area_sqft (venue x) <= area_sqft (venue y) ->
  (score y <= score x)%Q.
Proof.
  intros Hh Hp Hx Hy Hc Ha.
  destruct (exact_match_score_high r x Hh Hx) as [-> _].
  destruct (exact_match_score_high r y Hh Hy) as [-> _].
  rewrite Hc. do 2 apply addWhen_monotone.
  apply baseScore_antitone; [now apply required_area_pos | exact Ha].
Qed.

(** A venue with the capacity bonus that is no larger than one without it
    scores at least 10 more. *)
Lemma cross_group_gap (r : EventRequirements) (x y : VenueMatch) :
  priority r = high -> 0 < participants r ->
  isExactMatch r x -> isExactMatch r y ->
  (capacity (venue x) >=? participants r) = true ->
  (capacity (venue y) >=? participants r) = false ->
  area_sqft (venue x) <= area_sqft (venue y) ->
  (10 <= score x - score y)%Q.
Proof.
  intros Hh Hp Hx Hy Hcx Hcy Ha.
  destruct (exact_match_score_high r x Hh Hx) as [-> _].
  destruct (exact_match_score_high r y Hh Hy) as [-> Hay].
  rewrite Hcx, Hcy.
  pose proof (required_area_pos r Hp) as Hr.
  pose proof (baseScore_antitone _ _ _ Hr Ha) as Hu.
  pose proof (baseScore_bounds _ _ Hr Hay) as Hb.
  set (ux := baseScore (area_sqft (venue x)) _) in *.
  set (uy := baseScore (area_sqft (venue y)) _) in *.
  pose proof (Qfloor_le uy) as Hn1. pose proof (Qlt_floor uy) as Hn2.
  set (n := Qfloor uy) in *.
  assert (Hn : 80 <= n <= 180).
  { split.
    - assert (H : (inject_Z 80 < inject_Z (n + 1))%Q)
        by (change (inject_Z 80) with 80%Q; lra).
      rewrite <- Zlt_Qlt in H. lia.
    - assert (H : (inject_Z n <= inject_Z 180)%Q)
        by (change (inject_Z 180) with 180%Q; lra).
      rewrite <- Zle_Qle in H. exact H. }
  assert (P : 2 ^ 53 = 9007199254740992) by reflexivity.
  assert (L1 : (inject_Z (n + 20) <= addWhen true 20 ux)%Q).
  { apply (fadd_lower n 20); [lia | lra]. }
  assert (L2 : (inject_Z (n + 20 + 10) <= addWhen true 10 (addWhen true 20 ux))%Q).
  { apply (fadd_lower (n + 20) 10); [lia | exact L1]. }
  assert (U2 : (addWhen true 10 (addWhen false 20 uy) <= inject_Z (n + 1 + 10))%Q).
  { unfold addWhen, fadd. apply fl_upper; [lia | ].
    rewrite (inject_Z_plus (n + 1) 10). change (inject_Z 10) with 10%Q. lra. }
  rewrite !inject_Z_plus in L2, U2.
  change (inject_Z 20) with 20%Q in L2. change (inject_Z 10) with 10%Q in L2, U2.
  change (inject_Z 1) with 1%Q in U2.
  set (sx := addWhen true 10 (addWhen true 20 ux)) in *.
  set (sy := addWhen true 10 (addWhen false 20 uy)) in *.
  lra.
Qed.

(** The comparator of the second sort, read as an order. *)
Lemma bySmallestSuitable_precedes (r : EventRequirements) (x y : VenueMatch) :
  priority r = high -> 0 < participants r ->
  isExactMatch r x -> isExactMatch r y ->
  JsArray.precedes bySmallestSuitable x y <->
  ((Qabs (score x - score y) < 10)%Q /\
   area_sqft (venue x) <= area_sqft (venue y)) \/
  ((10 <= Qabs (score x - score y))%Q /\ (score y <= score x)%Q).
Proof.
  intros Hh Hp Hx Hy.
  pose proof (exact_match_scores_subtract r x y Hh Hp Hx Hy) as Exy.
  pose proof (exact_match_scores_subtract r y x Hh Hp Hy Hx) as Eyx.
  unfold JsArray.precedes, bySmallestSuitable. rewrite Qle_bool_iff.
  destruct (Qlt_le_dec (Qabs (fsub (score x) (score y))) 10) as [Hlt|Hge].
  - rewrite Exy in Hlt.
    assert (Hz : (fsub (inject_Z (area_sqft (venue x)))
                       (inject_Z (area_sqft (venue y))) <= 0)%Q
                 <-> area_sqft (venue x) <= area_sqft (venue y)).
    { unfold fsub. rewrite fl_nonpos_iff, Zle_Qle. split; intros H; lra. }
    rewrite Hz. split; [auto | ]. intros [[_ H]|[H _]]; [exact H | lra].
  - rewrite Exy in Hge. rewrite Eyx.
    split; [intros H; right; split; [exact Hge | lra] | ].
    intros [[H _]|[_ H]]; lra.
Qed.

Lemma bySmallestSuitable_precedes_Q (r : EventRequirements)
  (x y : VenueMatch) :
  priority r = high -> 0 < participants r ->
  isExactMatch r x -> isExactMatch r y ->
  JsArray.precedes bySmallestSuitable x y <->
  ((-10 < score x - score y < 10)%Q /\
   (inject_Z (area_sqft (venue x)) <= inject_Z (area_sqft (venue y)))%Q) \/
  (10 <= score x - score y)%Q.
Proof.
  intros Hh Hp Hx Hy.
  rewrite (bySmallestSuitable_precedes r x y Hh Hp Hx Hy), <- Zle_Qle.
  pose proof (Qabs_Qlt_condition (score x - score y) 10) as Hlt.
  pose proof (Qabs_pos (score x - score y)) as Hpos.
  pose proof (Qabs_neg (score x - score y)) as Hneg.
  split.
  - intros [[H Ha]|[H Hs]].
    + left. split; [ | exact Ha]. apply Hlt in H. lra.
    + right. assert (H0 : (0 <= score x - score y)%Q) by lra.
      rewrite (Hpos H0) in H. exact H.
  - intros [[H Ha]|H].
    + left. split; [ | exact Ha]. apply Hlt. lra.
    + right. assert (H0 : (0 <= score x - score y)%Q) by lra.
      rewrite (Hpos H0). lra.
Qed.

(** The arithmetic behind the order. *)
Lemma smallest_suitable_trans_arith (gx gy gz : bool)
  (ax ay az sx sy sz : Q) :
  groupsAgree gx gy ax ay sx sy -> groupsAgree gy gx ay ax sy sx ->
  groupsAgree gy gz ay az sy sz -> groupsAgree gz gy az ay sz sy ->
  groupsAgree gx gz ax az sx sz -> groupsAgree gz gx az ax sz sx ->
  ((-10 < sx - sy < 10 /\ ax <= ay) \/ 10 <= sx - sy ->
   (-10 < sy - sz < 10 /\ ay <= az) \/ 10 <= sy - sz ->
   (-10 < sx - sz < 10 /\ ax <= az) \/ 10 <= sx - sz)%Q.
Proof.
  unfold groupsAgree. destruct gx, gy, gz; simpl; intros; lra.
Qed.

Lemma exact_matches_groupsAgree (r : EventRequirements) (x y : VenueMatch) :
  priority r = high -> 0 < participants r ->
  isExactMatch r x -> isExactMatch r y ->
  groupsAgree (capacity (venue x) >=? participants r)
              (capacity (venue y) >=? participants r)
              (inject_Z (area_sqft (venue x))) (inject_Z (area_sqft (venue y)))
              (score x) (score y).
Proof.
  intros Hh Hp Hx Hy Ha. rewrite <- Zle_Qle in Ha.
  destruct (capacity (venue x) >=? participants r) eqn:Cx,
           (capacity (venue y) >=? participants r) eqn:Cy; simpl.
  - apply (same_group_order r x y); auto. now rewrite Cx, Cy.
  - now apply (cross_group_gap r x y).
  - exact I.
  - apply (same_group_order r x y); auto. now rewrite Cx, Cy.
Qed.

Lemma bySmallestSuitable_total (r : EventRequirements) (x y : VenueMatch) :
  priority r = high -> 0 < participants r ->
  isExactMatch r x -> isExactMatch r y ->
  JsArray.precedes bySmallestSuitable x y \/
  JsArray.precedes bySmallestSuitable y x.
Proof.
  intros Hh Hp Hx Hy.
  rewrite (bySmallestSuitable_precedes_Q r x y Hh Hp Hx Hy),
          (bySmallestSuitable_precedes_Q r y x Hh Hp Hy Hx).
  lra.
Qed.

Lemma bySmallestSuitable_trans (r : EventRequirements) (x y z : VenueMatch) :
  priority r = high -> 0 < participants r ->
  isExactMatch r x -> isExactMatch r y -> isExactMatch r z ->
  JsArray.precedes bySmallestSuitable x y ->
  JsArray.precedes bySmallestSuitable y z ->
  JsArray.precedes bySmallestSuitable x z.
Proof.
  intros Hh Hp Hx Hy Hz.
  rewrite (bySmallestSuitable_precedes_Q r x y Hh Hp Hx Hy),
          (bySmallestSuitable_precedes_Q r y z Hh Hp Hy Hz),
          (bySmallestSuitable_precedes_Q r x z Hh Hp Hx Hz).
  apply (smallest_suitable_trans_arith
           (capacity (venue x) >=? participants r)
           (capacity (venue y) >=? participants r)
           (capacity (venue z) >=? participants r));
    now apply exact_matches_groupsAgree.
Qed.

Lemma rankMatches_high (r : EventRequirements) (ms : list VenueMatch) :
  priority r = high ->
  rankMatches r ms =
  JsArray.sort bySmallestSuitable (JsArray.sort byScoreDesc ms).
Proof.
  intros Hh. unfold rankMatches. rewrite Hh. simpl.
  destruct (JsArray.sort byScoreDesc ms); reflexivity.
Qed.

(** C3.  Under high priority and a positive participant count, of any two
    entries of [exactMatches] the earlier one has the smaller or the same
    area when their scores differ by less than 10, and the higher score
    when they differ by 10 or more. *)
Theorem high_priority_exactMatches_order (venues : list Venue)
  (r : EventRequirements) (res : MatchResult)
  (l1 l2 l3 : list VenueMatch) (x y : VenueMatch) :
  priority r = high -> 0 < participants r ->
  findBestVenues venues r = Some res ->
  exactMatches res = (l1 ++ x :: l2 ++ y :: l3)%list ->
  ((Qabs (score x - score y) < 10)%Q ->
   area_sqft (venue x) <= area_sqft (venue y)) /\
  ((10 <= Qabs (score x - score y))%Q -> (score y <= score x)%Q).
Proof.
  intros Hh Hp H Hl.
  destruct (findBestVenues_inv _ _ _ H) as (ms & alts & Hc & He & _).
  destruct (classify_inv _ _ _ _ Hc) as (Hms & _ & _).
  rewrite He, (rankMatches_high r ms Hh) in Hl.
  assert (Hm1 : Forall (fun m => isExactMatch r m)
                  (JsArray.sort byScoreDesc ms)).
  { apply (Permutation_Forall (Permutation_sym (sort_perm byScoreDesc ms))).
    exact Hms. }
  assert (Hm2 : Forall (fun m => isExactMatch r m)
                  (l1 ++ x :: l2 ++ y :: l3)%list).
  { rewrite <- Hl.
    apply (Permutation_Forall
             (Permutation_sym (sort_perm bySmallestSuitable _))).
    exact Hm1. }
  assert (Hs : StronglySorted (JsArray.precedes bySmallestSuitable)
                 (l1 ++ x :: l2 ++ y :: l3)%list).
  { rewrite <- Hl.
    apply (sort_sorted bySmallestSuitable (fun m => isExactMatch r m)).
    - intros a b. now apply bySmallestSuitable_total.
    - intros a b c. now apply bySmallestSuitable_trans.
    - exact Hm1. }
  apply StronglySorted_pair in Hs.
  rewrite Forall_forall in Hm2.
  assert (Hx : isExactMatch r x) by (apply Hm2, in_elt).
  assert (Hy : isExactMatch r y).
  { apply Hm2, in_or_app. right. right. apply in_elt. }
  apply (bySmallestSuitable_precedes r x y Hh Hp Hx Hy) in Hs.
  split; intros Hd; destruct Hs as [[H1 H2]|[H1 H2]]; trivial; lra.
Qed.

End Ranking.

Lemma findBestVenues_partition_witness :
  exists res bucket,
    @findBestVenues utcHost binary64 asciiStrings
        sampleCatalog (request 300 ["WiFi"] medium)
      = Some res /\
    StronglySorted (fun a b => (score b <= score a)%Q) bucket /\
    alternatives res = firstn 3 bucket /\
    Permutation (map venue (exactMatches res) ++ map venue bucket)%list
      sampleCatalog /\
    forall v, ~ (In v (map venue (exactMatches res)) /\
                 In v (map venue bucket)).
Proof.
  destruct (@findBestVenues utcHost binary64 asciiStrings sampleCatalog
              (request 300 ["WiFi"] medium)) as [res|] eqn:E;
    [ | vm_compute in E; discriminate].
  destruct (@findBestVenues_partition utcHost binary64 binary64_laws asciiStrings
      sampleCatalog
              (request 300 ["WiFi"] medium) res E) as [bucket H].
  exists res, bucket. split; [reflexivity | exact H].
Defined.

(** C1 as stated fails: of the six sample venues, one is an exact match
    and five are alternatives, and the cap of three leaves Computer Lab 2
    in neither returned list. *)
Lemma findBestVenues_cap_omits_venue :
  exists res,
    @findBestVenues utcHost binary64 asciiStrings
        sampleCatalog (request 300 ["WiFi"] medium)
      = Some res /\
    In computerLab2 sampleCatalog /\
    ~ In computerLab2 (map venue (exactMatches res)) /\
    ~ In computerLab2 (map venue (alternatives res)).
Proof.
  eexists. split; [vm_compute; reflexivity | ].
  split; [simpl; tauto | ].
  split; cbn [exactMatches alternatives map In]; intros H;
    repeat (destruct H as [H|H]; [discriminate H | ]); exact H.
Qed.

Lemma exactMatches_score_at_least_80_witness :
  exists res,
    0 < participants (request 100 [] high) /\
    @findBestVenues utcHost binary64 asciiStrings
        sampleCatalog (request 100 [] high) = Some res /\
    Forall (fun m => (80 <= score m)%Q) (exactMatches res).
Proof.
  destruct (@findBestVenues utcHost binary64 asciiStrings
      sampleCatalog (request 100 [] high))
    as [res|] eqn:E; [ | vm_compute in E; discriminate].
  exists res. split; [reflexivity | ]. split; [reflexivity | ].
  exact (@exactMatches_score_at_least_80 utcHost binary64 binary64_laws asciiStrings
      sampleCatalog
           (request 100 [] high) res eq_refl E).
Defined.

Lemma high_priority_exactMatches_order_witness :
  exists res x y,
    priority (request 100 [] high) = high /\
    0 < participants (request 100 [] high) /\
    @findBestVenues utcHost binary64 asciiStrings [bigHall; smallHall]
      (request 100 [] high) = Some res /\
    exactMatches res = ([] ++ x :: [] ++ y :: [])%list /\
    venue x = smallHall /\ venue y = bigHall /\
    (score x < score y)%Q /\
    (Qabs (score x - score y) < 10)%Q /\
    area_sqft (venue x) <= area_sqft (venue y).
Proof.
  destruct (@findBestVenues utcHost binary64 asciiStrings [bigHall; smallHall]
              (request 100 [] high)) as [res|] eqn:E;
    [ | vm_compute in E; discriminate].
  destruct (exactMatches res) as [|x [|y [|z l3]]] eqn:El;
    try (exfalso; vm_compute in E; injection E as E; rewrite <- E in El;
         discriminate El).
  exists res, x, y. rewrite El.
  split; [reflexivity | ]. split; [reflexivity | ].
  split; [reflexivity | ]. split; [reflexivity | ].
  pose proof (@high_priority_exactMatches_order utcHost binary64
                binary64_laws asciiStrings [bigHall; smallHall]
                (request 100 [] high) res [] [] [] x y eq_refl eq_refl E El)
    as [Hnear _].
  vm_compute in E. injection E as <-. simpl in El.
  injection El as <- <-.
  split; [reflexivity | ]. split; [reflexivity | ].
  split; [reflexivity | ].
  split; [reflexivity | apply Hnear; reflexivity].
Defined.

Lemma no_facilities_is_alternative_witness :
  JsArray.absentOrEmpty (facilities bareHall) = true /\
  facilitiesRequired (request 100 ["WiFi"] medium) <> [] /\
  exists m,
    @pushVenue utcHost binary64 asciiStrings
        (request 100 ["WiFi"] medium) (Some ([], []))
      bareHall = Some ([], [m]) /\
    alternative m = true /\
    exists rest, reason m = "Missing facilities:" ++ rest.
Proof.
  split; [reflexivity | ]. split; [discriminate | ].
  destruct (@no_facilities_is_alternative utcHost binary64 asciiStrings bareHall
              (request 100 ["WiFi"] medium) true [] [] eq_refl
              ltac:(discriminate) eq_refl)
    as (m & Hpush & _ & Halt & Hmiss & _).
  exists m. split; [exact Hpush | ]. split; [exact Halt | ].
  apply Hmiss; [vm_compute; discriminate | reflexivity].
Defined.

(** C5 as stated fails: the hall without facilities is too small for 500
    participants, and the reason names the area, not the facilities. *)
Lemma too_small_reason_comes_first :
  JsArray.absentOrEmpty (facilities bareHall) = true /\
  facilitiesRequired (request 500 ["WiFi"] medium) <> [] /\
  exists m,
    @findBestVenues utcHost binary64 asciiStrings
        [bareHall] (request 500 ["WiFi"] medium)
      = Some {| exactMatches := []; alternatives := [m]; noMatch := false |}
    /\ venue m = bareHall
    /\ reason m = "Too small: Needs 3000 sq ft, has 1000 sq ft"
    /\ ~ exists rest, reason m = "Missing facilities:" ++ rest.
Proof.
  split; [reflexivity | ]. split; [discriminate | ].
  eexists. split; [vm_compute; reflexivity | ].
  split; [reflexivity | ]. split; [reflexivity | ].
  intros [rest H]. discriminate H.
Qed.

(** ** Missing facilities *)

Lemma facilityMatches_iff {str : StringApi} (required available : string) :
  facilityMatches required available = true <->
  Spec.facilityMatch required available.
Proof.
  unfold facilityMatches, Spec.facilityMatch.
  now rewrite orb_true_iff, !includes_iff.
Qed.

(** C6.  For Classroom Block 101 and the requirement of [High-Speed WiFi]
    and [Stage], the reason lists both labels, although [High-Speed WiFi]
    matches the venue's [WiFi] under the test of [hasFacilities]: the only
    required label without a match is [Stage]. *)
Theorem missing_list_uses_one_direction :
  exists m,
    @evaluateVenue utcHost binary64 asciiStrings
      (request 100 ["High-Speed WiFi"; "Stage"] medium) classroom101
      = Some m /\
    reason m = "Missing facilities: High-Speed WiFi, Stage" /\
    Spec.facilityMatch (str := asciiStrings) "High-Speed WiFi" "WiFi" /\
    hasFacilities (str := asciiStrings) classroom101 ["High-Speed WiFi"]
      = true /\
    filter
      (fun required =>
         negb (JsArray.some (facilityMatches (str := asciiStrings) required)
                 (JsArray.orEmpty (facilities classroom101))))
      ["High-Speed WiFi"; "Stage"] = ["Stage"].
Proof.
  eexists. split; [vm_compute; reflexivity | ].
  split; [reflexivity | ].
  split; [apply facilityMatches_iff; reflexivity | ].
  split; reflexivity.
Qed.

(** ** Suggested time slots *)

Lemma split_app (sep : ascii) (a s : string) :
  JsString.includes a (String sep EmptyString) = false ->
  JsString.split sep (a ++ String sep s) = a :: JsString.split sep s.
Proof.
  induction a as [|c a IH]; simpl.
  - intros _. now rewrite Ascii.eqb_refl.
  - destruct (ascii_dec sep c) as [->|Hne].
    + destruct a; discriminate.
    + intros H. apply Ascii.eqb_neq in Hne. rewrite Ascii.eqb_sym in Hne.
      rewrite Hne, IH; [reflexivity | assumption].
Qed.

(** C4, amended.  For a date without a space and the single booking
    [<date> 09:00-10:00], the suggested slots are 14:00, 15:00 and 16:00:
    11:00 is one hour after the booked end 10:00 and falls within the
    buffer, while against 09:00 alone its difference of exactly two hours
    does not. *)
Theorem suggestions_after_nine_to_ten (v : Venue) (date : string) :
  ~ Spec.isSubstring " " date ->
  booked_slots v = Some [date ++ " 09:00-10:00"] ->
  getSuggestedTimeSlots v date = ["14:00"; "15:00"; "16:00"] /\
  withinBuffer "11:00" "09:00" = false /\
  withinBuffer "11:00" "10:00" = true.
Proof.
  intros Hsp Hv. split; [ | split; reflexivity].
  assert (Hno : JsString.includes date " " = false).
  { destruct (JsString.includes date " ") eqn:E; [ | reflexivity].
    exfalso. apply Hsp. now apply includes_iff. }
  assert (Hin : JsString.includes (date ++ " 09:00-10:00") date = true).
  { apply includes_iff. exists EmptyString, " 09:00-10:00". reflexivity. }
  unfold getSuggestedTimeSlots, bookedTimesOn. rewrite Hv.
  cbn [JsArray.absentOrEmpty JsArray.orEmpty filter]. rewrite Hin.
  cbn [map]. change (date ++ " 09:00-10:00")
    with (date ++ String " " "09:00-10:00").
  rewrite (split_app " " date "09:00-10:00" Hno). reflexivity.
Qed.

Lemma suggestions_after_nine_to_ten_witness :
  ~ Spec.isSubstring " " "2025-09-26" /\
  getSuggestedTimeSlots (bookedNineToTen "2025-09-26") "2025-09-26"
  = ["14:00"; "15:00"; "16:00"].
Proof.
  assert (Hsp : ~ Spec.isSubstring " " "2025-09-26").
  { intros H. apply includes_iff in H. discriminate. }
  split; [exact Hsp | ].
  exact (proj1 (suggestions_after_nine_to_ten
                  (bookedNineToTen "2025-09-26") "2025-09-26" Hsp eq_refl)).
Defined.

(** C4 as stated fails: 11:00 is not among the suggested slots. *)
Lemma eleven_is_not_suggested :
  getSuggestedTimeSlots (bookedNineToTen "2025-09-26") "2025-09-26"
  <> ["11:00"; "14:00"; "15:00"; "16:00"].
Proof. vm_compute. discriminate. Qed.

(** * Further properties of the code *)

(** ** Facilities *)

Section Facilities.
Context {str : StringApi}.

Lemma hasFacilities_matches (v : Venue) (required : list string) :
  hasFacilities v required = true <->
  forall r, In r required ->
    exists f, In f (JsArray.orEmpty (facilities v)) /\ Spec.facilityMatch r f.
Proof.
  unfold hasFacilities. destruct required as [|r0 required].
  - split; [intros _ r [] | reflexivity].
  - destruct (JsArray.absentOrEmpty (facilities v)) eqn:E.
    + split; [discriminate | ]. intros H.
      destruct (H r0 (or_introl eq_refl)) as (f & Hf & _).
      destruct (facilities v) as [[|f0 fs]|]; simpl in *;
        try contradiction; discriminate.
    + unfold JsArray.every, JsArray.some. rewrite forallb_forall.
      split; intros H r Hr.
      * apply H in Hr. apply existsb_exists in Hr.
        destruct Hr as (f & Hf & Hm). exists f.
        split; [exact Hf | now apply facilityMatches_iff].
      * apply existsb_exists. destruct (H r Hr) as (f & Hf & Hm).
        exists f. split; [exact Hf | now apply facilityMatches_iff].
Qed.

(** [hasFacilities] holds exactly when every required label matches some
    facility of the venue, in one direction or the other, after
    lower-casing; an empty requirement holds for every venue, and a venue
    without facilities meets no other. *)
Theorem hasFacilities_iff (v : Venue) (required : list string) :
  hasFacilities v required = true <->
  forall r, In r required ->
    exists f, In f (JsArray.orEmpty (facilities v)) /\ Spec.facilityMatch r f.
Proof. apply hasFacilities_matches. Qed.

(** More facilities or fewer requirements never turn [hasFacilities]
    false. *)
Theorem hasFacilities_monotone (v v' : Venue) (required required' : list string) :
  incl (JsArray.orEmpty (facilities v)) (JsArray.orEmpty (facilities v')) ->
  incl required' required ->
  hasFacilities v required = true -> hasFacilities v' required' = true.
Proof.
  rewrite !hasFacilities_matches. intros Hf Hr H r Hin.
  destruct (H r (Hr r Hin)) as (f & Hfin & Hm).
  exists f. split; [now apply Hf | exact Hm].
Qed.

Lemma facilityMatch_lower (r r' f f' : string) :
  toLowerCase r = toLowerCase r' ->
  toLowerCase f = toLowerCase f' ->
  Spec.facilityMatch r f -> Spec.facilityMatch r' f'.
Proof. unfold Spec.facilityMatch. now intros -> ->. Qed.

(** Letter case does not matter: two venues and two requirement lists
    whose labels agree after the host's [toLowerCase] get the same answer,
    whatever letters that function lower-cases. *)
Theorem hasFacilities_ignores_case (v v' : Venue) (required required' : list string) :
  map toLowerCase (JsArray.orEmpty (facilities v)) =
  map toLowerCase (JsArray.orEmpty (facilities v')) ->
  map toLowerCase required = map toLowerCase required' ->
  hasFacilities v required = hasFacilities v' required'.
Proof.
  assert (Hone : forall w w' q q',
    map toLowerCase (JsArray.orEmpty (facilities w)) =
    map toLowerCase (JsArray.orEmpty (facilities w')) ->
    map toLowerCase q = map toLowerCase q' ->
    hasFacilities w q = true -> hasFacilities w' q' = true).
  { intros w w' q q' Hf Hq. rewrite !hasFacilities_matches.
    intros H r' Hr'.
    assert (Hl : In (toLowerCase r') (map toLowerCase q))
      by (rewrite Hq; now apply in_map).
    apply in_map_iff in Hl. destruct Hl as (r & Hrl & Hr).
    destruct (H r Hr) as (f & Hfin & Hm).
    assert (Hl : In (toLowerCase f)
                   (map toLowerCase
                      (JsArray.orEmpty (facilities w'))))
      by (rewrite <- Hf; now apply in_map).
    apply in_map_iff in Hl. destruct Hl as (f' & Hfl & Hf').
    exists f'. split; [exact Hf' | ].
    now apply (facilityMatch_lower r r' f f'). }
  intros Hf Hq.
  destruct (hasFacilities v required) eqn:E1,
           (hasFacilities v' required') eqn:E2; trivial.
  - rewrite (Hone v v' required required' Hf Hq E1) in E2. discriminate.
  - rewrite (Hone v' v required' required (eq_sym Hf) (eq_sym Hq) E2) in E1.
    discriminate.
Qed.

End Facilities.

Lemma hasFacilities_monotone_witness :
  hasFacilities (str := asciiStrings) computerLab1 ["Projector"] = true.
Proof.
  apply (hasFacilities_monotone (str := asciiStrings)
           (withFacilities computerLab1 (Some ["Projector"; "AC"]))
           computerLab1 ["Projector"; "AC"] ["Projector"]).
  - intros f [<-|[<-|[]]]; simpl; tauto.
  - intros r [<-|[]]. simpl. tauto.
  - reflexivity.
Defined.

Lemma hasFacilities_ignores_case_witness :
  hasFacilities (str := asciiStrings) classroom101 ["WIFI"; "projector"] =
  hasFacilities (str := asciiStrings)
    (withFacilities classroom101 (Some ["PROJECTOR"; "whiteboard"; "wifi"]))
    ["wifi"; "Projector"].
Proof.
  apply (hasFacilities_ignores_case (str := asciiStrings)); reflexivity.
Defined.

(** ** Availability, continued *)

Lemma prefix_char (c x : ascii) (t : string) :
  String.prefix (String c EmptyString) (String x t) =
  if ascii_dec c x then true else false.
Proof. simpl. destruct (ascii_dec c x); [now destruct t | reflexivity]. Qed.

Lemma includes_char_app (a b : string) (c : ascii) :
  JsString.includes (a ++ b) (String c EmptyString) =
  JsString.includes a (String c EmptyString) ||
  JsString.includes b (String c EmptyString).
Proof.
  induction a as [|x a IH].
  - reflexivity.
  - change (String x a ++ b) with (String x (a ++ b)).
    cbn [JsString.includes]. rewrite !prefix_char, IH.
    now rewrite orb_assoc.
Qed.

Lemma not_substring_includes (sub s : string) :
  ~ Spec.isSubstring sub s -> JsString.includes s sub = false.
Proof.
  intros H. destruct (JsString.includes s sub) eqn:E; [ | reflexivity].
  exfalso. apply H. now apply includes_iff.
Qed.

(** The tokens of a well-formed serialized interval. *)
Lemma serializeSlot_tokens (d s e : string) :
  ~ Spec.isSubstring " " d -> ~ Spec.isSubstring " " s ->
  ~ Spec.isSubstring " " e ->
  ~ Spec.isSubstring "-" s -> ~ Spec.isSubstring "-" e ->
  JsString.includes (serializeSlot d s e) d = true /\
  nth_error (JsString.split " " (serializeSlot d s e)) 1
    = Some (s ++ "-" ++ e) /\
  JsString.truthy (s ++ "-" ++ e) = true /\
  JsString.includes (s ++ "-" ++ e) "-" = true /\
  JsString.split "-" (s ++ "-" ++ e) = [s; e].
Proof.
  intros Hd Hs He Hds Hde.
  apply not_substring_includes in Hd, Hs, He, Hds, Hde.
  unfold serializeSlot. repeat split.
  - apply includes_iff. exists EmptyString, (" " ++ s ++ "-" ++ e).
    reflexivity.
  - change (d ++ " " ++ s ++ "-" ++ e)
      with (d ++ String " " (s ++ "-" ++ e)).
    rewrite (split_app " " d _ Hd), split_without; [reflexivity | ].
    rewrite includes_char_app, Hs.
    change ("-" ++ e) with (String "-" e).
    cbn [JsString.includes orb]. now rewrite prefix_char, He.
  - now destruct s.
  - apply includes_iff. exists s, e. reflexivity.
  - change (s ++ "-" ++ e) with (s ++ String "-" e).
    now rewrite (split_app "-" s e Hds), (split_without "-" e Hde).
Qed.

Lemma lexLe_refl (s : string) : Spec.lexLe s s.
Proof. induction s; constructor; assumption. Qed.

Section AvailabilityMore.
Context {host : DateApi}.

Lemma isVenueAvailable_None_iff (v : Venue) (dt : string) :
  isVenueAvailable v dt = None <->
  JsArray.absentOrEmpty (booked_slots v) = false /\ isoDate dt = None.
Proof.
  unfold isVenueAvailable.
  destruct (JsArray.absentOrEmpty (booked_slots v)).
  - split; [discriminate | intros [H _]; discriminate].
  - destruct (isoDate dt); split; try discriminate; auto.
    intros [_ H]. discriminate.
Qed.

(** [isVenueAvailable] throws only for a venue that has booked slots and
    a requested date-time the host cannot read; a venue without bookings
    is available whatever the date-time string is. *)
Theorem isVenueAvailable_throws_iff (v : Venue) (dt : string) :
  (isVenueAvailable v dt = None <->
   JsArray.absentOrEmpty (booked_slots v) = false /\ isoDate dt = None) /\
  (JsArray.absentOrEmpty (booked_slots v) = true ->
   isVenueAvailable v dt = Some true).
Proof.
  split; [apply isVenueAvailable_None_iff | ].
  intros H. unfold isVenueAvailable. now rewrite H.
Qed.

(** Slots of other dates do not count: when no booked slot contains [d],
    the date part of [toISOString] for the request (its date in UTC), the
    venue is available. *)
Theorem isVenueAvailable_other_dates (v : Venue) (dt d : string) :
  isoDate dt = Some d ->
  (forall slot, In slot (JsArray.orEmpty (booked_slots v)) ->
                ~ Spec.isSubstring d slot) ->
  isVenueAvailable v dt = Some true.
Proof.
  intros Hd H. rewrite (isVenueAvailable_when_dated v dt d Hd).
  f_equal. apply negb_true_iff.
  destruct (JsArray.some _ _) eqn:E; [ | reflexivity].
  apply existsb_exists in E. destruct E as (slot & Hin & Hc).
  apply slotConflicts_iff in Hc. destruct Hc as [Hsub _].
  now apply H in Hin.
Qed.

(** A venue with fewer booked slots is available whenever the venue with
    more is: removing or reordering bookings never makes a venue
    unavailable, and never makes the check throw. *)
Theorem isVenueAvailable_fewer_slots (v v' : Venue) (dt : string) :
  incl (JsArray.orEmpty (booked_slots v)) (JsArray.orEmpty (booked_slots v')) ->
  isVenueAvailable v' dt = Some true ->
  isVenueAvailable v dt = Some true.
Proof.
  intros Hincl H. unfold isVenueAvailable in *.
  destruct (JsArray.absentOrEmpty (booked_slots v)) eqn:Ev; [reflexivity | ].
  destruct (JsArray.absentOrEmpty (booked_slots v')) eqn:Ev'.
  - exfalso.
    destruct (booked_slots v) as [[|s l]|]; try discriminate.
    destruct (booked_slots v') as [[|s' l']|]; try discriminate;
      exact (Hincl s (or_introl eq_refl)).
  - destruct (isoDate dt) as [d|]; [ | discriminate].
    injection H as H. apply negb_true_iff in H. f_equal.
    apply negb_true_iff.
    destruct (JsArray.some _ (JsArray.orEmpty (booked_slots v))) eqn:E;
      [ | reflexivity].
    apply existsb_exists in E. destruct E as (slot & Hin & Hc).
    assert (Hex : JsArray.some (slotConflicts d (localeTime dt))
                    (JsArray.orEmpty (booked_slots v')) = true).
    { apply existsb_exists. exists slot. split; [now apply Hincl | exact Hc]. }
    congruence.
Qed.

(** A well-formed interval [<date> <start>-<end>] conflicts, on its own
    date, exactly at the times from [start] to [end], both ends
    included. *)
Theorem wellformed_booking_blocks (d s e t : string) :
  ~ Spec.isSubstring " " d -> ~ Spec.isSubstring " " s ->
  ~ Spec.isSubstring " " e ->
  ~ Spec.isSubstring "-" s -> ~ Spec.isSubstring "-" e ->
  (slotConflicts d t (serializeSlot d s e) = true <->
   Spec.lexLe s t /\ Spec.lexLe t e) /\
  (Spec.lexLe s e ->
   slotConflicts d s (serializeSlot d s e) = true /\
   slotConflicts d e (serializeSlot d s e) = true).
Proof.
  intros Hd Hs He Hds Hde.
  assert (Hform : forall t',
    slotConflicts d t' (serializeSlot d s e) =
    JsString.le s t' && JsString.le t' e).
  { intros t'.
    destruct (serializeSlot_tokens d s e Hd Hs He Hds Hde)
      as (H1 & H2 & H3 & H4 & H5).
    unfold slotConflicts. now rewrite H1, H2, H3, H4, H5. }
  assert (Hiff : forall t',
    slotConflicts d t' (serializeSlot d s e) = true <->
    Spec.lexLe s t' /\ Spec.lexLe t' e).
  { intros t'. now rewrite Hform, andb_true_iff, !leb_iff. }
  split; [apply Hiff | ].
  intros Hse. split; apply Hiff; split; trivial; apply lexLe_refl.
Qed.

End AvailabilityMore.

Lemma isVenueAvailable_other_dates_witness :
  @isVenueAvailable utcHost mainAuditorium "2025-09-27 11:00" = Some true.
Proof.
  apply (@isVenueAvailable_other_dates utcHost mainAuditorium "2025-09-27 11:00"
           "2025-09-27" eq_refl).
  intros slot [<-|[]] H. apply includes_iff in H. discriminate.
Defined.

Lemma isVenueAvailable_fewer_slots_witness :
  @isVenueAvailable utcHost (withSlots mainAuditorium (Some []))
    "2025-09-26 13:00" = Some true.
Proof.
  apply (@isVenueAvailable_fewer_slots utcHost (withSlots mainAuditorium (Some []))
           mainAuditorium "2025-09-26 13:00").
  - intros s [].
  - reflexivity.
Defined.

Lemma wellformed_booking_blocks_witness :
  slotConflicts "2025-09-26" "12:00" (serializeSlot "2025-09-26" "10:00" "12:00")
  = true.
Proof.
  assert (Hno : forall c s, JsString.includes s c = false ->
                            ~ Spec.isSubstring c s).
  { intros c s E H. apply includes_iff in H. congruence. }
  apply (proj2 (proj2
    (wellformed_booking_blocks "2025-09-26" "10:00" "12:00" "12:00"
       (Hno " " "2025-09-26" eq_refl) (Hno " " "10:00" eq_refl)
       (Hno " " "12:00" eq_refl) (Hno "-" "10:00" eq_refl)
       (Hno "-" "12:00" eq_refl))
    ltac:(apply leb_iff; reflexivity))).
Defined.

(** ** Lists *)

Lemma In_firstn {A : Type} (n : nat) (l : list A) (x : A) :
  In x (firstn n l) -> In x l.
Proof.
  revert l; induction n as [|n IH]; intros [|y l]; simpl; try tauto.
  intros [H|H]; auto.
Qed.

Lemma StronglySorted_firstn {A : Type} (R : A -> A -> Prop) (n : nat)
  (l : list A) :
  StronglySorted R l -> StronglySorted R (firstn n l).
Proof.
  intros H. revert n. induction H as [|a l H IH Ha]; intros [|n]; simpl;
    try constructor; auto.
  rewrite Forall_forall in *. intros x Hx. apply Ha.
  now apply In_firstn in Hx.
Qed.

Lemma StronglySorted_app_pair {A : Type} (R : A -> A -> Prop)
  (l1 l2 : list A) (a b : A) :
  StronglySorted R (l1 ++ l2) -> In a l1 -> In b l2 -> R a b.
Proof.
  induction l1 as [|x l1 IH]; simpl; intros H Ha Hb; [contradiction | ].
  apply StronglySorted_inv in H. destruct H as [Hs Hx].
  destruct Ha as [<-|Ha]; [ | now apply IH].
  rewrite Forall_forall in Hx. apply Hx, in_or_app. now right.
Qed.

Lemma subsequence_refl {A : Type} (l : list A) : subsequence l l.
Proof. induction l; constructor; assumption. Qed.

Lemma subsequence_trans {A : Type} (l1 l2 l3 : list A) :
  subsequence l1 l2 -> subsequence l2 l3 -> subsequence l1 l3.
Proof.
  intros H12 H23. revert l1 H12.
  induction H23 as [|x l2 l3 H IH|x l2 l3 H IH]; intros l1 H12.
  - exact H12.
  - constructor. now apply IH.
  - inversion H12; subst.
    + constructor. now apply IH.
    + constructor 3. now apply IH.
Qed.

Lemma subsequence_filter {A : Type} (p : A -> bool) (l : list A) :
  subsequence (filter p l) l.
Proof.
  induction l as [|x l IH]; simpl; [constructor | ].
  destruct (p x); constructor; assumption.
Qed.

Lemma subsequence_nil_l {A : Type} (l : list A) : subsequence [] l.
Proof. induction l; constructor; assumption. Qed.

Lemma subsequence_firstn {A : Type} (n : nat) (l : list A) :
  subsequence (firstn n l) l.
Proof.
  revert l; induction n as [|n IH]; intros l; [apply subsequence_nil_l | ].
  destruct l as [|x l]; simpl; [constructor | ].
  constructor 3. apply IH.
Qed.

Lemma subsequence_map {A B : Type} (f : A -> B) (l1 l2 : list A) :
  subsequence l1 l2 -> subsequence (map f l1) (map f l2).
Proof. induction 1; simpl; constructor; assumption. Qed.

Lemma subsequence_filter_compat {A : Type} (p : A -> bool) (l1 l2 : list A) :
  subsequence l1 l2 -> subsequence (filter p l1) (filter p l2).
Proof.
  induction 1 as [|x l1 l2 H IH|x l1 l2 H IH]; simpl.
  - constructor.
  - destruct (p x); [constructor | ]; assumption.
  - destruct (p x); [constructor 3 | ]; assumption.
Qed.

Lemma fold_left_ext {A B : Type} (f g : A -> B -> A) (l : list B) (a : A) :
  (forall x y, f x y = g x y) -> fold_left f l a = fold_left g l a.
Proof.
  intros H. revert a. induction l as [|y l IH]; intros a; simpl;
    [reflexivity | ].
  now rewrite H, IH.
Qed.

(** The sort by descending score is stable: it keeps the order of the
    entries of one score. *)
Section StableSort.
Context {fp : Binary64} {fpl : Binary64Laws fp}.

Lemma insert_byScoreDesc_filter (q : Q) (x : VenueMatch) (l : list VenueMatch) :
  filter (fun m => Qeq_bool (score m) q) (JsArray.insert byScoreDesc x l) =
  filter (fun m => Qeq_bool (score m) q) (x :: l).
Proof.
  induction l as [|y l IH]; [reflexivity | ].
  cbn [JsArray.insert]. unfold byScoreDesc at 1.
  destruct (Qle_bool (fsub (score y) (score x)) 0) eqn:E; [reflexivity | ].
  cbn [filter] in *. rewrite IH.
  destruct (Qeq_bool (score x) q) eqn:Ex, (Qeq_bool (score y) q) eqn:Ey;
    try reflexivity.
  exfalso. apply Qeq_bool_iff in Ex, Ey.
  assert (H : Qle_bool (fsub (score y) (score x)) 0 = true).
  { apply Qle_bool_iff. unfold fsub. apply fl_nonpos_iff. lra. }
  congruence.
Qed.

Lemma sort_byScoreDesc_filter (q : Q) (l : list VenueMatch) :
  filter (fun m => Qeq_bool (score m) q) (JsArray.sort byScoreDesc l) =
  filter (fun m => Qeq_bool (score m) q) l.
Proof.
  induction l as [|x l IH]; [reflexivity | ].
  change (JsArray.sort byScoreDesc (x :: l))
    with (JsArray.insert byScoreDesc x (JsArray.sort byScoreDesc l)).
  rewrite insert_byScoreDesc_filter. cbn [filter]. now rewrite IH.
Qed.

End StableSort.

(** ** Ranking, continued *)

Section RankingMore.
Context {host : DateApi} {fp : Binary64} {fpl : Binary64Laws fp}
        {str : StringApi}.

Lemma evaluateVenue_None_iff (r : EventRequirements) (v : Venue) :
  evaluateVenue r v = None <->
  isVenueAvailable v (preferredDateTime r) = None.
Proof.
  unfold evaluateVenue.
  destruct (isVenueAvailable v (preferredDateTime r)); split;
    intros H; try discriminate; reflexivity.
Qed.

Lemma fold_pushVenue_None_iff (r : EventRequirements) (vs : list Venue) :
  forall acc,
    fold_left (pushVenue r) vs (Some acc) = None <->
    exists v, In v vs /\ evaluateVenue r v = None.
Proof.
  induction vs as [|v vs IH]; intros [ms alts]; simpl.
  - split; [discriminate | intros (v & [] & _)].
  - destruct (evaluateVenue r v) as [m|] eqn:E.
    + assert (Hstep : forall acc',
        fold_left (pushVenue r) vs (Some acc') = None <->
        exists v0, (v = v0 \/ In v0 vs) /\ evaluateVenue r v0 = None).
      { intros acc'. rewrite IH. split.
        - intros (v0 & Hin & H0). exists v0. auto.
        - intros (v0 & [<-|Hin] & H0); [congruence | ]. exists v0. auto. }
      destruct (alternative m); apply Hstep.
    + rewrite fold_pushVenue_None. split; [ | reflexivity].
      intros _. exists v. auto.
Qed.

(** [findBestVenues] throws exactly when the host cannot read the
    preferred date-time and some venue of the catalog has booked slots;
    otherwise it returns a result. *)
Theorem findBestVenues_throws_iff (venues : list Venue)
  (r : EventRequirements) :
  findBestVenues venues r = None <->
  isoDate (preferredDateTime r) = None /\
  exists v, In v venues /\ JsArray.absentOrEmpty (booked_slots v) = false.
Proof.
  unfold findBestVenues.
  assert (Hc : classify r venues = None <->
               exists v, In v venues /\ evaluateVenue r v = None)
    by apply fold_pushVenue_None_iff.
  assert (Hv : forall v, evaluateVenue r v = None <->
                         JsArray.absentOrEmpty (booked_slots v) = false /\
                         isoDate (preferredDateTime r) = None).
  { intros v. now rewrite evaluateVenue_None_iff, isVenueAvailable_None_iff. }
  destruct (classify r venues) as [[ms alts]|].
  - split; [discriminate | ]. intros (Hd & v & Hin & Hs).
    assert (H : @None (list VenueMatch * list VenueMatch) = None)
      by reflexivity.
    exfalso. assert (Hex : exists v, In v venues /\ evaluateVenue r v = None).
    { exists v. split; [exact Hin | ]. apply Hv. auto. }
    apply Hc in Hex. discriminate.
  - split; [ | reflexivity]. intros _.
    destruct (proj1 Hc eq_refl) as (v & Hin & Hn).
    apply Hv in Hn. destruct Hn as [Hs Hd].
    split; [exact Hd | ]. exists v. auto.
Qed.

Lemma findBestVenues_noMatch (venues : list Venue) (r : EventRequirements)
  (res : MatchResult) :
  findBestVenues venues r = Some res ->
  exists ms alts,
    classify r venues = Some (ms, alts) /\
    noMatch res =
    (length (rankMatches r ms) =? 0)%nat &&
    (length (rankAlternatives alts) =? 0)%nat.
Proof.
  unfold findBestVenues.
  destruct (classify r venues) as [[ms alts]|]; [ | discriminate].
  intros H. injection H as <-. exists ms, alts. auto.
Qed.

Lemma classify_lengths (r : EventRequirements) (venues : list Venue)
  (ms alts : list VenueMatch) :
  classify r venues = Some (ms, alts) ->
  (length venues = length ms + length alts)%nat.
Proof.
  intros H. destruct (classify_inv _ _ _ _ H) as (_ & _ & Hp).
  apply Permutation_length in Hp.
  now rewrite length_app, !length_map in Hp.
Qed.

(** The number of alternatives returned is the number of venues that are
    not exact matches, capped at three. *)
Theorem alternatives_length (venues : list Venue) (r : EventRequirements)
  (res : MatchResult) :
  findBestVenues venues r = Some res ->
  length (alternatives res) =
  Nat.min 3 (length venues - length (exactMatches res)).
Proof.
  intros H. destruct (findBestVenues_inv _ _ _ H) as (ms & alts & Hc & -> & ->).
  rewrite length_firstn. unfold rankAlternatives.
  rewrite sort_length, (Permutation_length (rankMatches_perm r ms)).
  rewrite (classify_lengths _ _ _ _ Hc). f_equal. lia.
Qed.

(** [noMatch] is set exactly for the empty catalog, and exactly when both
    returned lists are empty. *)
Theorem noMatch_iff_empty_catalog (venues : list Venue)
  (r : EventRequirements) (res : MatchResult) :
  findBestVenues venues r = Some res ->
  (noMatch res = true <-> venues = []) /\
  (noMatch res = true <-> exactMatches res = [] /\ alternatives res = []).
Proof.
  intros H.
  destruct (findBestVenues_inv _ _ _ H) as (ms & alts & Hc & He & Ha).
  destruct (findBestVenues_noMatch _ _ _ H) as (ms' & alts' & Hc' & Hn).
  rewrite Hc in Hc'. injection Hc' as <- <-.
  pose proof (classify_lengths _ _ _ _ Hc) as Hl.
  pose proof (Permutation_length (rankMatches_perm r ms)) as Hlm.
  assert (Hla : length (rankAlternatives alts) = length alts)
    by apply sort_length.
  rewrite Hn, andb_true_iff, !Nat.eqb_eq, Hlm, Hla, He, Ha. split.
  - rewrite <- length_zero_iff_nil. lia.
  - rewrite <- !length_zero_iff_nil, length_firstn, Hlm, Hla. lia.
Qed.

Lemma in_catalog_classified (r : EventRequirements) (venues : list Venue)
  (ms alts : list VenueMatch) (v : Venue) (m : VenueMatch) :
  classify r venues = Some (ms, alts) ->
  In v venues -> evaluateVenue r v = Some m ->
  (alternative m = false /\ In m ms) \/ (alternative m = true /\ In m alts).
Proof.
  intros Hc Hv Hm. destruct (classify_inv _ _ _ _ Hc) as (Hms & Halts & Hp).
  apply (Permutation_in _ (Permutation_sym Hp)) in Hv.
  rewrite Forall_forall in Hms, Halts.
  apply in_app_or in Hv. destruct Hv as [Hv|Hv];
    apply in_map_iff in Hv; destruct Hv as (m' & Hvm & Hin).
  - left. destruct (Hms _ Hin) as [E A]. rewrite Hvm, Hm in E.
    injection E as ->. auto.
  - right. destruct (Halts _ Hin) as [E A]. rewrite Hvm, Hm in E.
    injection E as ->. auto.
Qed.

(** The cap keeps the best: an alternative venue of the catalog that is
    not returned scores no higher than any alternative that is. *)
Theorem alternatives_are_top_scored (venues : list Venue)
  (r : EventRequirements) (res : MatchResult) (v : Venue) (m a : VenueMatch) :
  findBestVenues venues r = Some res ->
  In v venues -> evaluateVenue r v = Some m -> alternative m = true ->
  ~ In m (alternatives res) -> In a (alternatives res) ->
  (score m <= score a)%Q.
Proof.
  intros H Hv Hm Halt Hout Ha.
  destruct (findBestVenues_inv _ _ _ H) as (ms & alts & Hc & _ & Hal).
  rewrite Hal in Hout, Ha.
  destruct (in_catalog_classified _ _ _ _ _ _ Hc Hv Hm) as [[A _]|[_ Hin]];
    [congruence | ].
  apply (sort_In byScoreDesc) in Hin. fold (rankAlternatives alts) in Hin.
  pose proof (byScoreDesc_sorted alts) as Hs.
  fold (rankAlternatives alts) in Hs.
  rewrite <- (firstn_skipn 3 (rankAlternatives alts)) in Hin, Hs.
  apply in_app_or in Hin. destruct Hin as [Hin|Hin]; [contradiction | ].
  exact (StronglySorted_app_pair _ _ _ _ _ Hs Ha Hin).
Qed.

(** The returned alternatives are in descending order of score, and so
    are the exact matches unless the priority is high. *)
Theorem results_sorted_by_score (venues : list Venue) (r : EventRequirements)
  (res : MatchResult) :
  findBestVenues venues r = Some res ->
  StronglySorted (fun a b => (score b <= score a)%Q) (alternatives res) /\
  (isHigh (priority r) = false ->
   StronglySorted (fun a b => (score b <= score a)%Q) (exactMatches res)).
Proof.
  intros H. destruct (findBestVenues_inv _ _ _ H) as (ms & alts & _ & -> & ->).
  split.
  - apply StronglySorted_firstn, byScoreDesc_sorted.
  - intros Hh. unfold rankMatches. rewrite Hh. apply byScoreDesc_sorted.
Qed.

End RankingMore.

Lemma alternatives_length_witness :
  exists res,
    @findBestVenues utcHost binary64 asciiStrings
        sampleCatalog (request 300 ["WiFi"] medium)
      = Some res /\
    length (alternatives res) =
    Nat.min 3 (length sampleCatalog - length (exactMatches res)).
Proof.
  destruct (@findBestVenues utcHost binary64 asciiStrings sampleCatalog
              (request 300 ["WiFi"] medium)) as [res|] eqn:E;
    [ | vm_compute in E; discriminate].
  exists res. split; [reflexivity | ].
  exact (@alternatives_length utcHost binary64 asciiStrings _ _ res E).
Defined.

Lemma noMatch_iff_empty_catalog_witness :
  exists res,
    @findBestVenues utcHost binary64 asciiStrings
        [] (request 300 ["WiFi"] medium) = Some res /\
    noMatch res = true.
Proof.
  destruct (@findBestVenues utcHost binary64 asciiStrings
      [] (request 300 ["WiFi"] medium))
    as [res|] eqn:E; [ | vm_compute in E; discriminate].
  exists res. split; [reflexivity | ].
  apply (proj1 (@noMatch_iff_empty_catalog utcHost binary64 asciiStrings
      _ _ res E)). reflexivity.
Defined.

Lemma results_sorted_by_score_witness :
  exists res,
    @findBestVenues utcHost binary64 asciiStrings
        sampleCatalog (request 300 ["WiFi"] medium)
      = Some res /\
    StronglySorted (fun a b => (score b <= score a)%Q) (alternatives res).
Proof.
  destruct (@findBestVenues utcHost binary64 asciiStrings sampleCatalog
              (request 300 ["WiFi"] medium)) as [res|] eqn:E;
    [ | vm_compute in E; discriminate].
  exists res. split; [reflexivity | ].
  exact (proj1 (@results_sorted_by_score utcHost binary64 binary64_laws asciiStrings
      _ _ res E)).
Defined.

Lemma alternatives_are_top_scored_witness :
  exists res m a,
    @findBestVenues utcHost binary64 asciiStrings
        sampleCatalog (request 300 ["WiFi"] medium)
      = Some res /\
    In computerLab2 sampleCatalog /\
    @evaluateVenue utcHost binary64 asciiStrings
        (request 300 ["WiFi"] medium) computerLab2
      = Some m /\
    alternative m = true /\
    ~ In m (alternatives res) /\ In a (alternatives res) /\
    (score m <= score a)%Q.
Proof.
  destruct (@findBestVenues utcHost binary64 asciiStrings sampleCatalog
              (request 300 ["WiFi"] medium)) as [res|] eqn:E;
    [ | vm_compute in E; discriminate].
  destruct (@evaluateVenue utcHost binary64 asciiStrings
      (request 300 ["WiFi"] medium)
              computerLab2) as [m|] eqn:Em;
    [ | vm_compute in Em; discriminate].
  destruct (alternatives res) as [|a l] eqn:Ea;
    [exfalso; vm_compute in E; injection E as E; rewrite <- E in Ea;
     discriminate Ea | ].
  assert (Hv : In computerLab2 sampleCatalog) by (simpl; tauto).
  assert (Halt : alternative m = true)
    by (vm_compute in Em; injection Em as <-; reflexivity).
  assert (Hout : ~ In m (alternatives res)).
  { vm_compute in E. injection E as <-. vm_compute in Em.
    injection Em as <-. cbn [alternatives In].
    intros H. repeat (destruct H as [H|H]; [discriminate H | ]). exact H. }
  assert (Ha : In a (alternatives res)) by (rewrite Ea; now left).
  exists res, m, a.
  repeat (split; [assumption || reflexivity | ]).
  exact (@alternatives_are_top_scored utcHost binary64 binary64_laws asciiStrings
      sampleCatalog _ res
           computerLab2 m a E Hv Em Halt Hout Ha).
Defined.

Section RankingOrder.
Context {host : DateApi} {fp : Binary64} {fpl : Binary64Laws fp}
        {str : StringApi}.

Lemma fold_pushVenue_order (r : EventRequirements) (vs : list Venue) :
  forall ms alts ms' alts',
    fold_left (pushVenue r) vs (Some (ms, alts)) = Some (ms', alts') ->
    exists ms1 alts1,
      ms' = (ms ++ ms1)%list /\ alts' = (alts ++ alts1)%list /\
      subsequence (map venue ms1) vs /\ subsequence (map venue alts1) vs.
Proof.
  induction vs as [|v vs IH]; simpl; intros ms alts ms' alts' H.
  - injection H as <- <-. exists [], []. rewrite !app_nil_r.
    repeat split; constructor.
  - destruct (evaluateVenue r v) as [m|] eqn:E;
      [ | rewrite fold_pushVenue_None in H; discriminate].
    assert (Hv : venue m = v).
    { destruct (evaluateVenue_inv _ _ _ E) as (av & _ & Hv & _). exact Hv. }
    destruct (alternative m);
      apply IH in H; destruct H as (ms1 & alts1 & -> & -> & Hm & Ha).
    + exists ms1, (m :: alts1). rewrite <- app_assoc. simpl. rewrite Hv.
      repeat split; trivial; constructor; assumption.
    + exists (m :: ms1), alts1. rewrite <- app_assoc. simpl. rewrite Hv.
      repeat split; trivial; constructor; assumption.
Qed.

(** Ties keep the catalog's order: the venues of the returned
    alternatives whose score is one and the same double stand in the
    order of the catalog, and so do those of the exact matches unless the
    priority is high. *)
Theorem equal_scores_keep_catalog_order (venues : list Venue)
  (r : EventRequirements) (res : MatchResult) (q : Q) :
  findBestVenues venues r = Some res ->
  subsequence
    (map venue (filter (fun m => Qeq_bool (score m) q) (alternatives res)))
    venues /\
  (isHigh (priority r) = false ->
   subsequence
     (map venue (filter (fun m => Qeq_bool (score m) q) (exactMatches res)))
     venues).
Proof.
  intros H. destruct (findBestVenues_inv _ _ _ H) as (ms & alts & Hc & -> & ->).
  apply fold_pushVenue_order in Hc.
  destruct Hc as (ms1 & alts1 & -> & -> & Hm & Ha). cbn [app].
  unfold rankAlternatives. split.
  - apply (subsequence_trans _ (map venue alts1)); [ | exact Ha].
    apply subsequence_map.
    apply (subsequence_trans _
             (filter (fun m => Qeq_bool (score m) q) alts1));
      [ | apply subsequence_filter].
    rewrite <- (sort_byScoreDesc_filter q alts1).
    apply subsequence_filter_compat, subsequence_firstn.
  - intros Hh. unfold rankMatches. rewrite Hh. cbn [andb].
    rewrite sort_byScoreDesc_filter.
    apply (subsequence_trans _ (map venue ms1)); [ | exact Hm].
    apply subsequence_map, subsequence_filter.
Qed.

Lemma reasonFor_cases (v : Venue) (r : EventRequirements) (required : Z)
  (areaMatch isAvailable hasFac : bool) :
  let reason := reasonFor v r required areaMatch isAvailable hasFac in
  (areaMatch = false ->
   reason = "Too small: Needs " ++ JsString.ofInt required ++ " sq ft, has "
              ++ JsString.ofInt (area_sqft v) ++ " sq ft") /\
  (areaMatch = true -> isAvailable = false ->
   reason = "Venue is booked at requested time") /\
  (areaMatch = true -> isAvailable = true -> hasFac = false ->
   reason = "Missing facilities: "
              ++ JsString.join ", " (missingFacilities v r)) /\
  (areaMatch = true -> isAvailable = true -> hasFac = true ->
   reason =
   "Perfect match: Adequate space, available, and has required facilities").
Proof.
  unfold reasonFor. repeat split; intros; subst; reflexivity.
Qed.

(** Every exact match carries the [Perfect match] reason and is not
    flagged alternative; every returned alternative is flagged and
    carries one of the three other reasons, never an empty one. *)
Theorem reasons_match_buckets (venues : list Venue) (r : EventRequirements)
  (res : MatchResult) :
  findBestVenues venues r = Some res ->
  Forall
    (fun m =>
       alternative m = false /\
       reason m =
       "Perfect match: Adequate space, available, and has required facilities")
    (exactMatches res) /\
  Forall
    (fun m =>
       alternative m = true /\
       ((exists rest, reason m = "Too small: Needs " ++ rest) \/
        reason m = "Venue is booked at requested time" \/
        (exists rest, reason m = "Missing facilities: " ++ rest)))
    (alternatives res).
Proof.
  intros H. destruct (findBestVenues_inv _ _ _ H) as (ms & alts & Hc & -> & ->).
  destruct (classify_inv _ _ _ _ Hc) as (Hms & Halts & _).
  rewrite !Forall_forall in *. split; intros m Hm.
  - apply (Permutation_in _ (rankMatches_perm r ms)) in Hm.
    destruct (Hms _ Hm) as [E A]. split; [exact A | ].
    destruct (evaluateVenue_inv _ _ _ E) as (av & _ & _ & _ & Hr & Halt).
    rewrite A in Halt. symmetry in Halt.
    apply orb_false_iff in Halt. destruct Halt as [Halt Hf].
    apply orb_false_iff in Halt. destruct Halt as [Ham Hav].
    apply negb_false_iff in Hf, Ham, Hav.
    rewrite Hr. now apply reasonFor_cases.
  - apply In_firstn, sort_In in Hm.
    destruct (Halts _ Hm) as [E A]. split; [exact A | ].
    destruct (evaluateVenue_inv _ _ _ E) as (av & _ & _ & _ & Hr & Halt).
    rewrite A in Halt. rewrite Hr.
    pose proof (reasonFor_cases (venue m) r
                  (calculateRequiredArea (participants r))
                  (area_sqft (venue m) >=?
                   calculateRequiredArea (participants r))
                  av (hasFacilities (venue m) (facilitiesRequired r)))
      as (H1 & H2 & H3 & _).
    destruct (area_sqft (venue m) >=? calculateRequiredArea (participants r)).
    + destruct av.
      * destruct (hasFacilities (venue m) (facilitiesRequired r));
          [discriminate | ].
        right. right. eexists. now apply H3.
      * right. left. now apply H2.
    + left. eexists. now apply H1.
Qed.

(** The [Too small] reason is given exactly to the venues whose area is
    below the required area; a venue of exactly the required area never
    gets it. *)
Theorem too_small_iff_area_below (r : EventRequirements) (v : Venue)
  (m : VenueMatch) :
  evaluateVenue r v = Some m ->
  ((exists rest, reason m = "Too small:" ++ rest) <->
   area_sqft v < calculateRequiredArea (participants r)).
Proof.
  intros E.
  destruct (evaluateVenue_inv _ _ _ E) as (av & _ & _ & _ & Hr & _).
  rewrite Hr.
  pose proof (reasonFor_cases v r (calculateRequiredArea (participants r))
                (area_sqft v >=? calculateRequiredArea (participants r))
                av (hasFacilities v (facilitiesRequired r)))
    as (H1 & H2 & H3 & H4).
  destruct (area_sqft v >=? calculateRequiredArea (participants r)) eqn:Ea.
  - split; [ | lia]. intros [rest Hrest]. exfalso.
    destruct av.
    + destruct (hasFacilities v (facilitiesRequired r)).
      * rewrite H4 in Hrest by reflexivity. discriminate Hrest.
      * rewrite H3 in Hrest by reflexivity. discriminate Hrest.
    + rewrite H2 in Hrest by reflexivity. discriminate Hrest.
  - split; [lia | ]. intros _. rewrite H1 by reflexivity.
    eexists. reflexivity.
Qed.

(** Only the participant count, the required facilities, the preferred
    date-time and whether the priority is high reach the result: the event
    type and the space type are never read, and medium and low priority
    are treated alike. *)
Theorem findBestVenues_reads_four_fields (venues : list Venue)
  (r r' : EventRequirements) :
  participants r = participants r' ->
  facilitiesRequired r = facilitiesRequired r' ->
  preferredDateTime r = preferredDateTime r' ->
  isHigh (priority r) = isHigh (priority r') ->
  findBestVenues venues r = findBestVenues venues r'.
Proof.
  intros Hp Hf Hd Hh.
  assert (He : forall v, evaluateVenue r v = evaluateVenue r' v).
  { intros v. unfold evaluateVenue, calculateScore, reasonFor,
      missingFacilities. now rewrite Hp, Hf, Hd, Hh. }
  assert (Hc : classify r venues = classify r' venues).
  { unfold classify. apply fold_left_ext. intros acc v.
    unfold pushVenue. now rewrite He. }
  unfold findBestVenues, rankMatches. now rewrite Hc, Hh.
Qed.

End RankingOrder.

Lemma too_small_iff_area_below_witness :
  exists m,
    @evaluateVenue utcHost binary64 asciiStrings
        (request 100 [] medium) bareHall = Some m /\
    ~ exists rest, reason m = "Too small:" ++ rest.
Proof.
  destruct (@evaluateVenue utcHost binary64 asciiStrings
      (request 100 [] medium) bareHall)
    as [m|] eqn:E; [ | vm_compute in E; discriminate].
  exists m. split; [reflexivity | ]. intros H.
  apply (proj1 (@too_small_iff_area_below utcHost binary64 asciiStrings
      _ _ m E)) in H.
  vm_compute in H. discriminate H.
Defined.

Lemma findBestVenues_reads_four_fields_witness :
  @findBestVenues utcHost binary64 asciiStrings
      sampleCatalog (request 100 ["WiFi"] medium) =
  @findBestVenues utcHost binary64 asciiStrings sampleCatalog
    {| participants := 100; facilitiesRequired := ["WiFi"];
       preferredDateTime := "2025-09-26 11:00"; priority := low;
       eventType := non_technical; spaceType := Some "Stage" |}.
Proof.
  apply findBestVenues_reads_four_fields; reflexivity.
Defined.

Lemma equal_scores_keep_catalog_order_witness :
  exists res,
    @findBestVenues utcHost binary64 asciiStrings
        sampleCatalog (request 300 ["WiFi"] medium)
      = Some res /\
    subsequence
      (map venue
         (filter (fun m => Qeq_bool (score m) 80) (alternatives res)))
      sampleCatalog.
Proof.
  destruct (@findBestVenues utcHost binary64 asciiStrings sampleCatalog
              (request 300 ["WiFi"] medium)) as [res|] eqn:E;
    [ | vm_compute in E; discriminate].
  exists res. split; [reflexivity | ].
  exact (proj1 (@equal_scores_keep_catalog_order utcHost binary64 binary64_laws asciiStrings
      _ _ res 80%Q E)).
Defined.

Lemma reasons_match_buckets_witness :
  exists res,
    @findBestVenues utcHost binary64 asciiStrings
        sampleCatalog (request 300 ["WiFi"] medium)
      = Some res /\
    Forall
      (fun m =>
         alternative m = false /\
         reason m =
         "Perfect match: Adequate space, available, and has required facilities")
      (exactMatches res).
Proof.
  destruct (@findBestVenues utcHost binary64 asciiStrings sampleCatalog
              (request 300 ["WiFi"] medium)) as [res|] eqn:E;
    [ | vm_compute in E; discriminate].
  exists res. split; [reflexivity | ].
  exact (proj1 (@reasons_match_buckets utcHost binary64 asciiStrings
      _ _ res E)).
Defined.

(** ** Scores, continued *)

Section LargerAreas.
Context {fp : Binary64} {fpl : Binary64Laws fp}.

#[local] Abbreviation areaTerm area required :=
  (Qmax 0 (fsub 100
             (fmul (fsub (fdiv (inject_Z area) (inject_Z required)) 1) 20))).

Lemma quotient_bounds (required a : Z) :
  0 < required -> 0 <= a <= 6 * required ->
  (0 <= inject_Z a / inject_Z required <= 6)%Q.
Proof.
  intros Hr [H0 H6]. pose proof (inject_Z_pos _ Hr) as Hrq. split.
  - apply Qle_shift_div_l; [exact Hrq | ].
    rewrite Qmult_0_l. change 0%Q with (inject_Z 0). now rewrite <- Zle_Qle.
  - apply Qle_shift_div_r; [exact Hrq | ].
    change 6%Q with (inject_Z 6). now rewrite <- inject_Z_mult, <- Zle_Qle.
Qed.

Lemma quotient_gap (required a b : Z) :
  0 < required -> a < b ->
  (/ inject_Z required <=
   inject_Z b / inject_Z required - inject_Z a / inject_Z required)%Q.
Proof.
  intros Hr Hab. pose proof (inject_Z_pos _ Hr) as Hrq.
  assert (H1 : (1 <= inject_Z b - inject_Z a)%Q).
  { assert (H : (inject_Z (a + 1) <= inject_Z b)%Q)
      by (rewrite <- Zle_Qle; lia).
    rewrite inject_Z_plus in H. change (inject_Z 1) with 1%Q in H. lra. }
  assert (E : (inject_Z b / inject_Z required -
               inject_Z a / inject_Z required ==
               (inject_Z b - inject_Z a) * / inject_Z required)%Q)
    by (unfold Qdiv; ring).
  rewrite E. rewrite <- (Qmult_1_l (/ inject_Z required)) at 1.
  apply Qmult_le_compat_r; [exact H1 | ].
  apply Qinv_le_0_compat. lra.
Qed.

(** Up to six times the required area, the area term tells two areas
    apart: it loses 20 points per required area, less the rounding. *)
Lemma areaTerm_gap (required a b : Z) :
  0 < required -> 0 <= a -> a < b -> b <= 6 * required ->
  (0 <= areaTerm b required <= 120 /\
   0 <= areaTerm a required <= 120 /\
   20 * / inject_Z required - (42 # 8796093022208) <=
   areaTerm a required - areaTerm b required)%Q.
Proof.
  intros Hr Ha Hab Hb.
  destruct (quotient_bounds required a Hr ltac:(lia)) as [A0 A6].
  destruct (quotient_bounds required b Hr ltac:(lia)) as [B0 B6].
  pose proof (quotient_gap required a b Hr Hab) as G0.
  unfold fsub, fmul, fdiv.
  set (rho := (/ inject_Z required)%Q) in *.
  set (qa := (inject_Z a / inject_Z required)%Q) in *.
  set (qb := (inject_Z b / inject_Z required)%Q) in *.
  assert (EA : (0 <= fl qa <= 6)%Q).
  { split; [apply (fl_lower _ 0) | apply (fl_upper _ 6)];
      try reflexivity; assumption. }
  assert (EB : (0 <= fl qb <= 6)%Q).
  { split; [apply (fl_lower _ 0) | apply (fl_upper _ 6)];
      try reflexivity; assumption. }
  pose proof (fl_gap qa qb rho ltac:(lra) ltac:(lra) G0) as G1.
  set (ea := fl qa) in *. set (eb := fl qb) in *.
  assert (FA : (-1 <= fl (ea - 1) <= 5)%Q).
  { split; [apply (fl_lower _ (-1)) | apply (fl_upper _ 5)];
      try reflexivity; [change (inject_Z (-1)) with (-1)%Q
                       | change (inject_Z 5) with 5%Q]; lra. }
  assert (FB : (-1 <= fl (eb - 1) <= 5)%Q).
  { split; [apply (fl_lower _ (-1)) | apply (fl_upper _ 5)];
      try reflexivity; [change (inject_Z (-1)) with (-1)%Q
                       | change (inject_Z 5) with 5%Q]; lra. }
  pose proof (fl_gap (ea - 1) (eb - 1) (rho - (1 # 8796093022208))
                ltac:(lra) ltac:(lra) ltac:(lra)) as G2.
  set (fa := fl (ea - 1)) in *. set (fb := fl (eb - 1)) in *.
  assert (MA : (-20 <= fl (fa * 20) <= 100)%Q).
  { split; [apply (fl_lower _ (-20)) | apply (fl_upper _ 100)];
      try reflexivity; [change (inject_Z (-20)) with (-20)%Q
                       | change (inject_Z 100) with 100%Q]; lra. }
  assert (MB : (-20 <= fl (fb * 20) <= 100)%Q).
  { split; [apply (fl_lower _ (-20)) | apply (fl_upper _ 100)];
      try reflexivity; [change (inject_Z (-20)) with (-20)%Q
                       | change (inject_Z 100) with 100%Q]; lra. }
  assert (G3 : (20 * rho - (41 # 8796093022208) <=
                fl (fb * 20) - fl (fa * 20))%Q).
  { pose proof (fl_gap (fa * 20) (fb * 20)
                  (20 * rho - (40 # 8796093022208))
                  ltac:(lra) ltac:(lra) ltac:(lra)). lra. }
  set (ma := fl (fa * 20)) in *. set (mb := fl (fb * 20)) in *.
  assert (SA : (0 <= fl (100 - ma) <= 120)%Q).
  { split; [apply (fl_lower _ 0) | apply (fl_upper _ 120)];
      try reflexivity; [change (inject_Z 0) with 0%Q
                       | change (inject_Z 120) with 120%Q]; lra. }
  assert (SB : (0 <= fl (100 - mb) <= 120)%Q).
  { split; [apply (fl_lower _ 0) | apply (fl_upper _ 120)];
      try reflexivity; [change (inject_Z 0) with 0%Q
                       | change (inject_Z 120) with 120%Q]; lra. }
  assert (G4 : (20 * rho - (42 # 8796093022208) <=
                fl (100 - ma) - fl (100 - mb))%Q).
  { pose proof (fl_gap (100 - mb) (100 - ma)
                  (20 * rho - (41 # 8796093022208))
                  ltac:(lra) ltac:(lra) ltac:(lra)). lra. }
  rewrite !Q.max_r by lra. auto.
Qed.

Lemma calculateScore_withArea (v : Venue) (r : EventRequirements)
  (isAvailable hasFac areaMatch : bool) :
  calculateScore (withArea v (area_sqft v)) r isAvailable hasFac areaMatch =
  calculateScore v r isAvailable hasFac areaMatch.
Proof. reflexivity. Qed.

Lemma score_antitone (v : Venue) (r : EventRequirements)
  (isAvailable hasFac : bool) (a b : Z) :
  0 < participants r -> a <= b ->
  (calculateScore (withArea v b) r isAvailable hasFac true <=
   calculateScore (withArea v a) r isAvailable hasFac true)%Q.
Proof.
  intros Hp Hab. rewrite !calculateScore_steps.
  cbn [withArea area_sqft capacity].
  do 4 apply addWhen_monotone. unfold addWhen.
  apply fadd_monotone; [apply Qle_refl | ].
  apply areaTerm_antitone; [unfold calculateRequiredArea; lia | exact Hab].
Qed.

Lemma score_gap (v : Venue) (r : EventRequirements)
  (isAvailable hasFac : bool) (a b : Z) :
  0 < participants r -> participants r < 2 ^ 32 ->
  0 <= a -> a < b -> b <= 6 * calculateRequiredArea (participants r) ->
  (calculateScore (withArea v b) r isAvailable hasFac true <
   calculateScore (withArea v a) r isAvailable hasFac true)%Q.
Proof.
  intros Hp Hp32 Ha Hab Hb.
  assert (Hr : 0 < calculateRequiredArea (participants r))
    by (unfold calculateRequiredArea; lia).
  destruct (areaTerm_gap _ a b Hr Ha Hab Hb) as (TB & TA & G).
  assert (Hrho : (1 # 25769803776 <=
                  / inject_Z (calculateRequiredArea (participants r)))%Q).
  { apply Qle_shift_inv_l; [now apply inject_Z_pos | ].
    assert (H : (inject_Z (calculateRequiredArea (participants r)) <=
                 inject_Z 25769803776)%Q).
    { rewrite <- Zle_Qle. unfold calculateRequiredArea.
      change (2 ^ 32) with 4294967296 in Hp32. lia. }
    change (inject_Z 25769803776) with 25769803776%Q in H. lra. }
  rewrite !calculateScore_steps. cbn [withArea area_sqft capacity].
  set (rho := (/ inject_Z (calculateRequiredArea (participants r)))%Q) in *.
  set (ta := areaTerm a (calculateRequiredArea (participants r))) in *.
  set (tb := areaTerm b (calculateRequiredArea (participants r))) in *.
  assert (S0a : (inject_Z 0 <= addWhen true ta 0 <= inject_Z 120)%Q).
  { unfold addWhen, fadd.
    split; [apply fl_lower | apply fl_upper]; try reflexivity;
      [change (inject_Z 0) with 0%Q | change (inject_Z 120) with 120%Q]; lra. }
  assert (S0b : (inject_Z 0 <= addWhen true tb 0 <= inject_Z 120)%Q).
  { unfold addWhen, fadd.
    split; [apply fl_lower | apply fl_upper]; try reflexivity;
      [change (inject_Z 0) with 0%Q | change (inject_Z 120) with 120%Q]; lra. }
  assert (G0 : (20 * rho - (43 # 8796093022208) <=
                addWhen true ta 0 - addWhen true tb 0)%Q).
  { unfold addWhen, fadd.
    pose proof (fl_gap (0 + tb) (0 + ta) (20 * rho - (42 # 8796093022208))
                  ltac:(lra) ltac:(lra) ltac:(lra)). lra. }
  set (s0a := addWhen true ta 0) in *. set (s0b := addWhen true tb 0) in *.
  pose proof (addWhen_between isAvailable 50 0 120 s0a ltac:(lia)
                ltac:(reflexivity) ltac:(reflexivity) S0a) as S1a.
  pose proof (addWhen_between isAvailable 50 0 120 s0b ltac:(lia)
                ltac:(reflexivity) ltac:(reflexivity) S0b) as S1b.
  pose proof (addWhen_gap isAvailable 50 0 120 s0a s0b _ ltac:(lia)
                ltac:(lia) ltac:(lia) S0a S0b G0) as G1.
  change (inject_Z 50) with 50%Q in S1a, S1b, G1.
  set (s1a := addWhen isAvailable 50 s0a) in *.
  set (s1b := addWhen isAvailable 50 s0b) in *.
  pose proof (addWhen_between hasFac 30 0 170 s1a ltac:(lia)
                ltac:(reflexivity) ltac:(reflexivity) S1a) as S2a.
  pose proof (addWhen_between hasFac 30 0 170 s1b ltac:(lia)
                ltac:(reflexivity) ltac:(reflexivity) S1b) as S2b.
  pose proof (addWhen_gap hasFac 30 0 170 s1a s1b _ ltac:(lia)
                ltac:(lia) ltac:(lia) S1a S1b G1) as G2.
  change (inject_Z 30) with 30%Q in S2a, S2b, G2.
  set (s2a := addWhen hasFac 30 s1a) in *.
  set (s2b := addWhen hasFac 30 s1b) in *.
  set (cap := capacity v >=? participants r).
  pose proof (addWhen_between cap 20 0 200 s2a ltac:(lia)
                ltac:(reflexivity) ltac:(reflexivity) S2a) as S3a.
  pose proof (addWhen_between cap 20 0 200 s2b ltac:(lia)
                ltac:(reflexivity) ltac:(reflexivity) S2b) as S3b.
  pose proof (addWhen_gap cap 20 0 200 s2a s2b _ ltac:(lia)
                ltac:(lia) ltac:(lia) S2a S2b G2) as G3.
  change (inject_Z 20) with 20%Q in S3a, S3b, G3.
  set (s3a := addWhen cap 20 s2a) in *.
  set (s3b := addWhen cap 20 s2b) in *.
  pose proof (addWhen_gap (isHigh (priority r)) 10 0 220 s3a s3b _ ltac:(lia)
                ltac:(lia) ltac:(lia) S3a S3b G3) as G4.
  change (inject_Z 10) with 10%Q in G4.
  set (s4a := addWhen (isHigh (priority r)) 10 s3a) in *.
  set (s4b := addWhen (isHigh (priority r)) 10 s3b) in *.
  lra.
Qed.

(** Among venues that differ only in area, the larger one never scores
    higher for its area.  It scores strictly lower as long as the smaller
    one has an area that is not negative and below six times the required
    area, and the participant count is below 2^32: beyond such counts two
    areas can round to one score. *)
Theorem larger_area_scores_lower (v : Venue) (r : EventRequirements)
  (isAvailable hasFac : bool) (a' : Z) :
  0 < participants r -> area_sqft v <= a' ->
  (calculateScore (withArea v a') r isAvailable hasFac true <=
   calculateScore v r isAvailable hasFac true)%Q /\
  (participants r < 2 ^ 32 -> 0 <= area_sqft v ->
   area_sqft v < a' ->
   area_sqft v < 6 * calculateRequiredArea (participants r) ->
   (calculateScore (withArea v a') r isAvailable hasFac true <
    calculateScore v r isAvailable hasFac true)%Q).
Proof.
  intros Hp Ha. rewrite <- (calculateScore_withArea v r isAvailable hasFac).
  split; [now apply score_antitone | ].
  intros Hp32 H0 Hlt H6.
  set (b := Z.min a' (6 * calculateRequiredArea (participants r))).
  apply Qle_lt_trans
    with (calculateScore (withArea v b) r isAvailable hasFac true).
  - apply score_antitone; [exact Hp | unfold b; lia].
  - apply score_gap; trivial; unfold b; lia.
Qed.

End LargerAreas.

(** Beyond such counts the strict part fails: for 2^50 participants two
    areas just above the required one round to the same score. *)
Lemma larger_areas_can_tie :
  (calculateScore (fp := binary64) (withArea bareHall (6 * 2 ^ 50 + 2))
     (request (2 ^ 50) [] medium) true true true ==
   calculateScore (fp := binary64) (withArea bareHall (6 * 2 ^ 50 + 1))
     (request (2 ^ 50) [] medium) true true true)%Q.
Proof. vm_compute. reflexivity. Qed.

Lemma larger_area_scores_lower_witness :
  (calculateScore (fp := binary64) (withArea classroom101 1200)
     (request 100 [] medium) true true true <
   calculateScore (fp := binary64) classroom101 (request 100 [] medium)
     true true true)%Q.
Proof.
  apply (proj2 (larger_area_scores_lower (fp := binary64)
                  (fpl := binary64_laws) classroom101
                  (request 100 [] medium) true true 1200
                  eq_refl ltac:(vm_compute; discriminate)));
    [reflexivity | vm_compute; discriminate | reflexivity | reflexivity].
Defined.

Section ScoresAtTheEnds.
Context {fp : Binary64} {fpl : Binary64Laws fp}.

Lemma addWhen_int_eq (cond : bool) (b n m : Z) (s : Q) :
  (s == inject_Z n)%Q -> Z.abs (n + b) < 2 ^ 53 ->
  m = (if cond then n + b else n) ->
  (addWhen cond (inject_Z b) s == inject_Z m)%Q.
Proof.
  intros Hs Hb ->. rewrite (addWhen_compat cond _ _ _ Hs).
  now apply addWhen_int.
Qed.

(** The four bonuses on top of a whole number are exact. *)
Lemma bonuses_int (c1 c2 c3 c4 : bool) (s : Q) (n : Z) :
  0 <= n <= 100 -> (s == inject_Z n)%Q ->
  (addWhen c4 10 (addWhen c3 20 (addWhen c2 30 (addWhen c1 50 s))) ==
   inject_Z (n + (if c1 then 50 else 0) + (if c2 then 30 else 0) +
             (if c3 then 20 else 0) + (if c4 then 10 else 0)))%Q.
Proof.
  intros Hn Hs.
  assert (P : 2 ^ 53 = 9007199254740992) by reflexivity.
  change 10%Q with (inject_Z 10). change 20%Q with (inject_Z 20).
  change 30%Q with (inject_Z 30). change 50%Q with (inject_Z 50).
  eapply addWhen_int_eq;
    [eapply addWhen_int_eq;
       [eapply addWhen_int_eq;
          [eapply addWhen_int_eq; [exact Hs | | reflexivity] | | reflexivity]
       | | reflexivity] | | ];
    destruct c1, c2, c3, c4; lia.
Qed.

(** The area term is worth 100 at exactly the required area and nothing
    from six times the required area on. *)
Theorem area_term_at_the_ends (v : Venue) (r : EventRequirements)
  (isAvailable hasFac : bool) :
  0 < participants r ->
  (area_sqft v = calculateRequiredArea (participants r) ->
   (calculateScore v r isAvailable hasFac true ==
    calculateScore v r isAvailable hasFac false + 100)%Q) /\
  (6 * calculateRequiredArea (participants r) <= area_sqft v ->
   (calculateScore v r isAvailable hasFac true ==
    calculateScore v r isAvailable hasFac false)%Q).
Proof.
  intros Hp.
  assert (Hr : 0 < calculateRequiredArea (participants r))
    by (unfold calculateRequiredArea; lia).
  pose proof (inject_Z_pos _ Hr) as Hrq.
  rewrite !calculateScore_steps. split.
  - intros ->.
    set (R := inject_Z (calculateRequiredArea (participants r))) in *.
    assert (E1 : (fdiv R R == 1)%Q).
    { unfold fdiv. rewrite (fl_compat (R / R) 1) by (field; lra).
      apply (fl_int 1). reflexivity. }
    assert (E2 : (fsub (fdiv R R) 1 == 0)%Q).
    { unfold fsub. rewrite (fl_compat (fdiv R R - 1) 0) by (rewrite E1; ring).
      apply fl_zero. }
    assert (E3 : (fmul (fsub (fdiv R R) 1) 20 == 0)%Q).
    { unfold fmul.
      rewrite (fl_compat (fsub (fdiv R R) 1 * 20) 0) by (rewrite E2; ring).
      apply fl_zero. }
    assert (E4 : (fsub 100 (fmul (fsub (fdiv R R) 1) 20) == 100)%Q).
    { unfold fsub at 1.
      rewrite (fl_compat (100 - fmul (fsub (fdiv R R) 1) 20) 100)
        by (rewrite E3; ring).
      apply (fl_int 100). reflexivity. }
    set (x := fsub 100 (fmul (fsub (fdiv R R) 1) 20)) in *.
    assert (E5 : (addWhen true (Qmax 0 x) 0 == inject_Z 100)%Q).
    { unfold addWhen, fadd.
      rewrite (fl_compat (0 + Qmax 0 x) 100).
      - apply (fl_int 100). reflexivity.
      - rewrite Q.max_r by lra. rewrite E4. ring. }
    assert (E6 : (addWhen false (Qmax 0 x) 0 == inject_Z 0)%Q) by reflexivity.
    rewrite (bonuses_int _ _ _ _ _ 100 ltac:(lia) E5).
    rewrite (bonuses_int _ _ _ _ _ 0 ltac:(lia) E6).
    change 100%Q with (inject_Z 100). rewrite <- inject_Z_plus.
    apply inject_Z_injective. lia.
  - intros H6.
    set (R := inject_Z (calculateRequiredArea (participants r))) in *.
    set (A := inject_Z (area_sqft v)).
    assert (He : (inject_Z 6 <= A / R)%Q).
    { apply Qle_shift_div_l; [exact Hrq | ]. unfold A, R.
      rewrite <- inject_Z_mult, <- Zle_Qle. lia. }
    assert (E1 : (inject_Z 6 <= fdiv A R)%Q)
      by (apply fl_lower; [reflexivity | exact He]).
    assert (E2 : (inject_Z 5 <= fsub (fdiv A R) 1)%Q).
    { apply fl_lower; [reflexivity | ].
      change (inject_Z 5) with 5%Q. change (inject_Z 6) with 6%Q in E1. lra. }
    assert (E3 : (inject_Z 100 <= fmul (fsub (fdiv A R) 1) 20)%Q).
    { apply fl_lower; [reflexivity | ].
      change (inject_Z 100) with 100%Q. change (inject_Z 5) with 5%Q in E2.
      lra. }
    assert (E4 : (fsub 100 (fmul (fsub (fdiv A R) 1) 20) <= 0)%Q).
    { unfold fsub at 1. apply fl_nonpos_iff.
      change (inject_Z 100) with 100%Q in E3. lra. }
    set (x := fsub 100 (fmul (fsub (fdiv A R) 1) 20)) in *.
    assert (E5 : (addWhen true (Qmax 0 x) 0 == addWhen false (Qmax 0 x) 0)%Q).
    { unfold addWhen, fadd.
      rewrite (fl_compat (0 + Qmax 0 x) 0); [apply fl_zero | ].
      rewrite Q.max_l by exact E4. ring. }
    do 4 apply addWhen_compat. exact E5.
Qed.

End ScoresAtTheEnds.

Lemma area_term_at_the_ends_witness :
  (calculateScore (fp := binary64) (withArea bareHall 600) (request 100 [] high)
     true true true == 210)%Q.
Proof.
  rewrite (proj1 (area_term_at_the_ends (fp := binary64)
                    (fpl := binary64_laws) (withArea bareHall 600)
                    (request 100 [] high) true true eq_refl) eq_refl).
  reflexivity.
Defined.

(** ** Suggested time slots, continued *)

Lemma in_bookedTimesOn (v : Venue) (date b : string) :
  In b (bookedTimesOn v date) <->
  exists slot,
    In slot (JsArray.orEmpty (booked_slots v)) /\
    JsString.includes slot date = true /\
    In b match nth_error (JsString.split " " slot) 1 with
         | Some timeRange =>
             if JsString.truthy timeRange
             then JsString.split "-" timeRange else []
         | None => []
         end.
Proof.
  unfold bookedTimesOn, JsArray.flat. rewrite in_concat. split.
  - intros (l & Hl & Hb). apply in_map_iff in Hl.
    destruct Hl as (slot & <- & Hs). apply filter_In in Hs.
    exists slot. tauto.
  - intros (slot & Hs & Hi & Hb). eexists. split; [ | exact Hb].
    apply in_map_iff. exists slot. split; [reflexivity | ].
    apply filter_In. auto.
Qed.

Lemma in_getSuggestedTimeSlots (v : Venue) (date t : string) :
  In t (getSuggestedTimeSlots v date) <->
  In t suggestions /\
  forall b, In b (bookedTimesOn v date) -> withinBuffer t b = false.
Proof.
  unfold getSuggestedTimeSlots.
  destruct (JsArray.absentOrEmpty (booked_slots v)) eqn:E.
  - split; [ | tauto]. intros H. split; [exact H | ].
    intros b Hb. apply in_bookedTimesOn in Hb.
    destruct Hb as (slot & Hs & _).
    destruct (booked_slots v) as [[|s l]|]; simpl in *;
      try contradiction; discriminate.
  - rewrite filter_In, negb_true_iff. unfold JsArray.some.
    split; intros [H1 H2]; split; trivial.
    + intros b Hb. destruct (withinBuffer t b) eqn:Eb; [ | reflexivity].
      rewrite <- H2. symmetry. apply existsb_exists. eauto.
    + destruct (existsb _ _) eqn:Ex; [ | reflexivity].
      apply existsb_exists in Ex. destruct Ex as (b & Hb & Hw).
      rewrite (H2 b Hb) in Hw. discriminate.
Qed.

(** Bookings on other dates do not count: when no booked slot contains
    the requested date, all six candidates are suggested. *)
Theorem suggestions_other_dates (v : Venue) (date : string) :
  (forall slot, In slot (JsArray.orEmpty (booked_slots v)) ->
                ~ Spec.isSubstring date slot) ->
  getSuggestedTimeSlots v date = suggestions.
Proof.
  intros H. unfold getSuggestedTimeSlots.
  destruct (JsArray.absentOrEmpty (booked_slots v)); [reflexivity | ].
  assert (Hb : bookedTimesOn v date = []).
  { destruct (bookedTimesOn v date) as [|b l] eqn:E; [reflexivity | ].
    assert (Hin : In b (bookedTimesOn v date)) by (rewrite E; now left).
    apply in_bookedTimesOn in Hin. destruct Hin as (slot & Hs & Hi & _).
    apply includes_iff in Hi. now apply H in Hs. }
  rewrite Hb. reflexivity.
Qed.

Lemma suggestions_other_dates_witness :
  getSuggestedTimeSlots mainAuditorium "2025-09-27" = suggestions.
Proof.
  apply suggestions_other_dates.
  intros slot [<-|[]] H. apply includes_iff in H. discriminate.
Defined.

(** No suggested time is within two hours of the start or the end of a
    well-formed booking for the requested date. *)
Theorem suggestions_keep_the_buffer (v : Venue) (d s e t : string)
  (a b : Z) :
  ~ Spec.isSubstring " " d -> ~ Spec.isSubstring " " s ->
  ~ Spec.isSubstring " " e ->
  ~ Spec.isSubstring "-" s -> ~ Spec.isSubstring "-" e ->
  In (serializeSlot d s e) (JsArray.orEmpty (booked_slots v)) ->
  In t (getSuggestedTimeSlots v d) ->
  getTime t = Some a -> getTime s = Some b \/ getTime e = Some b ->
  2 * 60 * 60 * 1000 <= Z.abs (a - b).
Proof.
  intros Hd Hs He Hds Hde Hin Ht Ha Hb.
  destruct (serializeSlot_tokens d s e Hd Hs He Hds Hde)
    as (H1 & H2 & H3 & _ & H5).
  apply in_getSuggestedTimeSlots in Ht. destruct Ht as [_ Ht].
  assert (Hbooked : forall x, x = s \/ x = e -> In x (bookedTimesOn v d)).
  { intros x Hx. apply in_bookedTimesOn. exists (serializeSlot d s e).
    split; [exact Hin | ]. split; [exact H1 | ].
    rewrite H2, H3, H5. simpl. destruct Hx as [->| ->]; auto. }
  destruct Hb as [Hb|Hb].
  - pose proof (Ht s (Hbooked s (or_introl eq_refl))) as Hw.
    unfold withinBuffer in Hw. rewrite Ha, Hb in Hw. lia.
  - pose proof (Ht e (Hbooked e (or_intror eq_refl))) as Hw.
    unfold withinBuffer in Hw. rewrite Ha, Hb in Hw. lia.
Qed.

Lemma suggestions_keep_the_buffer_witness :
  2 * 60 * 60 * 1000 <= Z.abs (14 * 3600000 - 12 * 3600000).
Proof.
  assert (Hno : forall c x, JsString.includes x c = false ->
                            ~ Spec.isSubstring c x).
  { intros c x E H. apply includes_iff in H. congruence. }
  apply (suggestions_keep_the_buffer mainAuditorium
           "2025-09-26" "10:00" "12:00" "14:00"
           (14 * 3600000) (12 * 3600000)
           (Hno " " "2025-09-26" eq_refl) (Hno " " "10:00" eq_refl)
           (Hno " " "12:00" eq_refl) (Hno "-" "10:00" eq_refl)
           (Hno "-" "12:00" eq_refl)).
  - left. reflexivity.
  - vm_compute. tauto.
  - reflexivity.
  - right. reflexivity.
Defined.

(** A further booking never adds a suggestion: the venue with more booked
    slots is suggested only times the venue with fewer is. *)
Theorem more_bookings_fewer_suggestions (v v' : Venue) (date : string) :
  incl (JsArray.orEmpty (booked_slots v)) (JsArray.orEmpty (booked_slots v')) ->
  incl (getSuggestedTimeSlots v' date) (getSuggestedTimeSlots v date).
Proof.
  intros Hincl t. rewrite !in_getSuggestedTimeSlots.
  intros [Hs Hb]. split; [exact Hs | ].
  intros b Hin. apply Hb. apply in_bookedTimesOn in Hin.
  destruct Hin as (slot & H1 & H2 & H3).
  apply in_bookedTimesOn. exists slot. split; [now apply Hincl | auto].
Qed.

Lemma more_bookings_fewer_suggestions_witness :
  incl (getSuggestedTimeSlots mainAuditorium "2025-09-26")
       (getSuggestedTimeSlots (withSlots mainAuditorium None) "2025-09-26").
Proof.
  apply more_bookings_fewer_suggestions. intros s [].
Defined.

(** ** Priority *)

Section Priority.
Context {host : DateApi} {fp : Binary64} {fpl : Binary64Laws fp}
        {str : StringApi}.

Lemma high_priority_sorted (venues : list Venue) (r : EventRequirements)
  (res : MatchResult) :
  priority r = high -> 0 < participants r ->
  findBestVenues venues r = Some res ->
  StronglySorted (JsArray.precedes bySmallestSuitable) (exactMatches res) /\
  Forall (fun m => evaluateVenue r (venue m) = Some m /\
                   alternative m = false) (exactMatches res).
Proof.
  intros Hh Hp H.
  destruct (findBestVenues_inv _ _ _ H) as (ms & alts & Hc & -> & _).
  destruct (classify_inv _ _ _ _ Hc) as (Hms & _ & _).
  assert (Hsorted : Forall (fun m => evaluateVenue r (venue m) = Some m /\
                                     alternative m = false)
                      (JsArray.sort byScoreDesc ms))
    by (apply (Permutation_Forall
                 (Permutation_sym (sort_perm byScoreDesc ms))), Hms).
  rewrite (rankMatches_high r ms Hh). split.
  - apply (sort_sorted bySmallestSuitable
             (fun m => evaluateVenue r (venue m) = Some m /\
                       alternative m = false)); trivial.
    + intros a b. now apply bySmallestSuitable_total.
    + intros a b c. now apply bySmallestSuitable_trans.
  - apply (Permutation_Forall
             (Permutation_sym (sort_perm bySmallestSuitable _))), Hsorted.
Qed.

(** Under high priority the smallest suitable venue comes first: of two
    exact matches that both reach the participant count in capacity, or
    both do not, the earlier one has the smaller or the same area. *)
Theorem high_priority_smallest_first (venues : list Venue)
  (r : EventRequirements) (res : MatchResult)
  (l1 l2 l3 : list VenueMatch) (x y : VenueMatch) :
  priority r = high -> 0 < participants r ->
  findBestVenues venues r = Some res ->
  exactMatches res = (l1 ++ x :: l2 ++ y :: l3)%list ->
  (capacity (venue x) >=? participants r) =
  (capacity (venue y) >=? participants r) ->
  area_sqft (venue x) <= area_sqft (venue y).
Proof.
  intros Hh Hp H Hl Hcap.
  destruct (high_priority_sorted _ _ _ Hh Hp H) as [Hs Hall].
  rewrite Hl in Hs, Hall.
  apply StronglySorted_pair in Hs.
  rewrite Forall_forall in Hall.
  assert (Hx : evaluateVenue r (venue x) = Some x /\ alternative x = false)
    by (apply Hall, in_elt).
  assert (Hy : evaluateVenue r (venue y) = Some y /\ alternative y = false).
  { apply Hall, in_or_app. right. right. apply in_elt. }
  apply (bySmallestSuitable_precedes_Q r x y Hh Hp Hx Hy) in Hs.
  destruct Hs as [[_ Ha]|Hgap]; [now rewrite Zle_Qle | ].
  destruct (Z_le_gt_dec (area_sqft (venue x)) (area_sqft (venue y)))
    as [Hle|Hgt]; [exact Hle | exfalso].
  assert (Hs : (score x <= score y)%Q).
  { apply (same_group_order r y x Hh Hp Hy Hx); [now symmetry | lia]. }
  lra.
Qed.

(** What a venue is recorded with, apart from its score. *)
Lemma evaluateVenue_priority (r : EventRequirements) (p : Priority)
  (v : Venue) :
  option_map (fun m => (venue m, reason m, alternative m))
    (evaluateVenue (withPriority r p) v) =
  option_map (fun m => (venue m, reason m, alternative m))
    (evaluateVenue r v).
Proof.
  unfold evaluateVenue. simpl.
  destruct (isVenueAvailable v (preferredDateTime r)); reflexivity.
Qed.

Lemma fold_pushVenue_priority (r : EventRequirements) (p : Priority)
  (vs : list Venue) :
  forall ms alts ms' alts',
    map venue ms = map venue ms' ->
    length alts = length alts' ->
    match fold_left (pushVenue (withPriority r p)) vs (Some (ms, alts)),
          fold_left (pushVenue r) vs (Some (ms', alts')) with
    | Some (a, b), Some (a', b') =>
        map venue a = map venue a' /\ length b = length b'
    | None, None => True
    | _, _ => False
    end.
Proof.
  induction vs as [|v vs IH]; intros ms alts ms' alts' Hm Ha; simpl.
  - auto.
  - pose proof (evaluateVenue_priority r p v) as E.
    destruct (evaluateVenue (withPriority r p) v) as [m|],
             (evaluateVenue r v) as [m'|]; simpl in E; try discriminate.
    + injection E as Ev _ Ealt. rewrite Ealt.
      destruct (alternative m'); apply IH; trivial.
      * rewrite !length_app. simpl. lia.
      * rewrite !map_app. simpl. now rewrite Hm, Ev.
    + now rewrite !fold_pushVenue_None.
Qed.

(** The priority changes scores and order, not the classification: under
    any two priorities the same venues are exact matches, and as many
    alternatives are returned. *)
Theorem priority_keeps_classification (venues : list Venue)
  (r : EventRequirements) (p : Priority) (res res' : MatchResult) :
  findBestVenues venues r = Some res ->
  findBestVenues venues (withPriority r p) = Some res' ->
  Permutation (map venue (exactMatches res)) (map venue (exactMatches res'))
  /\ length (alternatives res) = length (alternatives res').
Proof.
  intros H H'.
  destruct (findBestVenues_inv _ _ _ H) as (ms & alts & Hc & -> & ->).
  destruct (findBestVenues_inv _ _ _ H') as (ms' & alts' & Hc' & -> & ->).
  pose proof (fold_pushVenue_priority r p venues [] [] [] []
                eq_refl eq_refl) as Hrel.
  unfold classify in Hc, Hc'. rewrite Hc, Hc' in Hrel.
  destruct Hrel as [Hm Hl]. split.
  - rewrite (Permutation_map venue (rankMatches_perm r ms)).
    rewrite (Permutation_map venue
               (rankMatches_perm (withPriority r p) ms')).
    now rewrite Hm.
  - rewrite !length_firstn. unfold rankAlternatives.
    rewrite !sort_length. lia.
Qed.

End Priority.

Lemma high_priority_smallest_first_witness :
  exists res x y l3,
    @findBestVenues utcHost binary64 asciiStrings
        sampleCatalog (request 100 [] high) = Some res /\
    exactMatches res = ([] ++ x :: [] ++ y :: l3)%list /\
    area_sqft (venue x) <= area_sqft (venue y).
Proof.
  destruct (@findBestVenues utcHost binary64 asciiStrings
      sampleCatalog (request 100 [] high))
    as [res|] eqn:E; [ | vm_compute in E; discriminate].
  destruct (exactMatches res) as [|x [|y l3]] eqn:El;
    try (exfalso; vm_compute in E; injection E as E; rewrite <- E in El;
         discriminate El).
  exists res, x, y, l3. rewrite El.
  split; [reflexivity | ]. split; [reflexivity | ].
  apply (@high_priority_smallest_first utcHost binary64 binary64_laws asciiStrings
      sampleCatalog
           (request 100 [] high) res [] [] l3 x y eq_refl eq_refl E El).
  vm_compute in E. injection E as <-. simpl in El.
  injection El as <- <- _. reflexivity.
Defined.

Lemma priority_keeps_classification_witness :
  exists res res',
    @findBestVenues utcHost binary64 asciiStrings
        sampleCatalog (request 100 [] medium) = Some res /\
    @findBestVenues utcHost binary64 asciiStrings sampleCatalog
      (withPriority (request 100 [] medium) high) = Some res' /\
    Permutation (map venue (exactMatches res)) (map venue (exactMatches res')).
Proof.
  destruct (@findBestVenues utcHost binary64 asciiStrings
      sampleCatalog (request 100 [] medium))
    as [res|] eqn:E; [ | vm_compute in E; discriminate].
  destruct (@findBestVenues utcHost binary64 asciiStrings sampleCatalog
              (withPriority (request 100 [] medium) high))
    as [res'|] eqn:E'; [ | vm_compute in E'; discriminate].
  exists res, res'. split; [reflexivity | ]. split; [reflexivity | ].
  exact (proj1 (@priority_keeps_classification utcHost binary64 asciiStrings
      sampleCatalog
                  (request 100 [] medium) high res res' E E')).
Defined.

Lemma isVenueAvailable_throws_iff_witness :
  JsArray.absentOrEmpty (booked_slots seminarHallA) = true /\
  @isVenueAvailable utcHost seminarHallA "some day" = Some true.
Proof.
  split; [reflexivity | ].
  apply (proj2 (@isVenueAvailable_throws_iff utcHost seminarHallA "some day")).
  reflexivity.
Defined.
